(** * news-summary-browser: the commit pager and its prefetch policy

    A shallow embedding of [src/components/news-summary-browser.mjs].

    The component pages through a commit list ([log]) with an index
    ([currentIndex]) and asks the git library for more history when the
    user gets close to the oldest loaded commit.  Everything the file
    imports (isomorphic-git, LightningFS, the HTML parser of the browser)
    is an oracle here: an [Env] gives, for every call, an outcome (a value
    or a thrown exception) and the next state of the outside world.  The
    theorems hold for every such oracle.

    Conventions of the embedding:
    - an [async] function is a computation [M A]: it takes the world and
      returns an outcome, the world it leaves behind and the calls it
      made, in order.  [await] is sequencing; one invocation runs to its
      end before the next one starts;
    - strings are byte strings, the UTF-8 form of the JavaScript ones;
    - JavaScript numbers are the integers among the doubles: [+] rounds
      to the nearest double and a template literal prints the shortest
      digits that read back, in exponent form from [1e21] on;
      [currentIndex], [fetchThreshold] and [initialDepth] are numbers, as
      the constructor produces them ([parseInt(..) || default]), and
      [fetchStep] is a number, an infinity, a text or [null], which is
      what [attributeChangedCallback] can store in it;
    - the methods run on the configuration the constructor made of the
      attributes; [attributeChangedCallback] is embedded on its own, as
      the one assignment it makes;
    - the life cycle callbacks work on a [Host], which holds what the
      element has besides the paging state (its listeners, [#connected]);
    - a DOM element that [connectedCallback] looks up may be absent:
      [status], [backBtn] and [nextBtn], which the code guards before
      use, and [commitInfo], which it does not, so that [updateUI] throws
      without it; so may [.news-browser__content], which [initializeRepo]
      reaches through [this.shadowRoot], [null] for a closed shadow root.
      [content] is present: [connectedCallback] starts nothing without it;
    - the DOM calls on the parsed document ([createHTMLDocument],
      [innerHTML], [querySelector], [removeChild]) do not throw. *)

From Stdlib Require Import ZArith List String Ascii Bool Lia.
From Stdlib Require Import DecimalString.
Import ListNotations.

Local Open Scope string_scope.
Local Open Scope Z_scope.

(** ** Values *)

(** What a configuration property can hold: a number, one of the two
    infinities ([parseInt] of more than 308 digits), a text, [null]. *)
Inductive jsval :=
| JNumber (n : Z)
| JInfinity (negative : bool)
| JString (s : string)
| JNull.

(** ** Values handed to the libraries *)

(** [new LightningFS("fs")], its [.promises] view, and the [http] client
    imported from [isomorphic-git/http/web]. *)
Inductive fs_handle := LightningFS (name : string).
Inductive pfs_handle := Promises (fs : fs_handle).
Inductive http_handle := HttpWeb.

(** [fs.promises] *)
Definition fs_promises (fs : fs_handle) : pfs_handle := Promises fs.

(** One entry of [git.log]: [{ oid, commit: { message } }]. *)
Record CommitObject := { message : string }.
Record LogEntry := { oid : string; commit : CommitObject }.

Definition corsProxyUrl : string := "https://cors.isomorphic-git.org".

(** The object literals passed to [git.clone], [git.fetch], [git.log] and
    [git.checkout].  A field that a call site leaves out is [None]. *)
Record CloneArgs := {
  c_fs : option fs_handle;
  c_http : http_handle;
  c_dir : option string;
  c_url : string;
  c_ref : string;
  c_singleBranch : bool;
  c_depth : jsval;
  c_corsProxy : string }.

Record FetchArgs := {
  f_fs : option fs_handle;
  f_http : http_handle;
  f_dir : option string;
  f_url : string;
  f_ref : string;
  f_singleBranch : bool;
  f_depth : jsval;
  f_shallow : option bool;
  f_corsProxy : string }.

Record LogArgs := {
  l_fs : option fs_handle;
  l_dir : option string;
  l_ref : string;
  l_depth : jsval }.

Record CheckoutArgs := {
  o_fs : option fs_handle;
  o_dir : option string;
  o_ref : string;
  o_force : option bool }.

(** ** The DOM fragment built from [index.html] *)

#[warnings="-register-all"]
Inductive Node :=
| Text (data : string)
| Elem (tag : string) (attrs : list (string * string)) (children : list Node).

Definition is_hr (n : Node) : bool :=
  match n with
  | Elem t _ _ => String.eqb t "hr"
  | Text _ => false
  end.

(** The first node of [l], in tree order, that is an [hr] element or has
    one below it ([find] looks below a node); [i] is the position of the
    head of [l] among its siblings. *)
Section FirstHr.
Variable find : Node -> option (list nat).

Fixpoint first_hr (l : list Node) (i : nat) : option (list nat) :=
  match l with
  | [] => None
  | c :: rest =>
      if is_hr c then Some [i]
      else match find c with
           | Some p => Some (i :: p)
           | None => first_hr rest (S i)
           end
  end.
End FirstHr.

(** [root.querySelector("hr")]: the first descendant of [root], in tree
    order, that is an [hr] element, as the list of child positions that
    leads to it. [root] itself is not a candidate. *)
Fixpoint querySelector_hr (root : Node) : option (list nat) :=
  match root with
  | Text _ => None
  | Elem _ _ cs => first_hr querySelector_hr cs 0%nat
  end.

(** An [hr] element at [n] or below it. *)
Fixpoint has_hr (n : Node) : bool :=
  match n with
  | Text _ => false
  | Elem t _ cs => String.eqb t "hr" || existsb has_hr cs
  end.

Fixpoint update_nth {A} (i : nat) (f : A -> A) (l : list A) : list A :=
  match l, i with
  | [], _ => []
  | x :: r, O => f x :: r
  | x :: r, S j => x :: update_nth j f r
  end.

(** [while (hr.nextSibling) hr.parentNode.removeChild(hr.nextSibling)]
    for the node at position [p] under [root]: its parent keeps the
    children up to and including it. *)
Fixpoint removeNextSiblings (p : list nat) (root : Node) : Node :=
  match root, p with
  | Elem t a cs, [i] => Elem t a (firstn (S i) cs)
  | Elem t a cs, i :: p' => Elem t a (update_nth i (removeNextSiblings p') cs)
  | _, _ => root
  end.

Definition childNodes (n : Node) : list Node :=
  match n with
  | Elem _ _ cs => cs
  | Text _ => []
  end.

(** The children of [doc.body] once everything after the first [hr] is
    gone. *)
Definition cut_after_hr (body : list Node) : list Node :=
  let root := Elem "body" [] body in
  match querySelector_hr root with
  | Some p => childNodes (removeNextSiblings p root)
  | None => body
  end.

(** ** Outcomes, the outside world and the calls made on it *)

Inductive exn :=
| TypeError (msg : string)
| LibError (msg : string).

Inductive Outcome (A : Type) :=
| Ok (a : A)
| Throw (e : exn).
Arguments Ok {A} a.
Arguments Throw {A} e.

(** The libraries: each call sees the state [X] of the outside world (the
    repository in the virtual file system, the remote, the network) and
    returns its outcome with the next state. The HTML parser and
    serializer of the browser are functions of their input. *)
Record Env (X : Type) := {
  git_clone : CloneArgs -> X -> Outcome unit * X;
  git_fetch : FetchArgs -> X -> Outcome unit * X;
  git_log : LogArgs -> X -> Outcome (list LogEntry) * X;
  git_checkout : CheckoutArgs -> X -> Outcome unit * X;
  pfs_mkdir : pfs_handle -> string -> X -> Outcome unit * X;
  pfs_readFile : pfs_handle -> string -> string -> X -> Outcome string * X;
  (** children of [doc.body] after [doc.documentElement.innerHTML = s] *)
  parse_body : string -> list Node;
  (** [innerHTML] of an element with these children *)
  innerHTML_of : list Node -> string }.
Arguments git_clone {X}.
Arguments git_fetch {X}.
Arguments git_log {X}.
Arguments git_checkout {X}.
Arguments pfs_mkdir {X}.
Arguments pfs_readFile {X}.
Arguments parse_body {X}.
Arguments innerHTML_of {X}.

Inductive Method :=
| MPrefetchMore
| MShowOlder
| MShowNewer
| MInitializeRepo
| MDisplayCommit (index : Z)
| MUpdateUI.

Inductive Event :=
| Enter (m : Method)
| GitClone (a : CloneArgs)
| GitFetch (a : FetchArgs)
| GitLog (a : LogArgs)
| GitCheckout (a : CheckoutArgs)
| Mkdir (path : string)
| ReadFile (path encoding : string).

Definition is_fetch (e : Event) : bool :=
  match e with GitFetch _ => true | _ => false end.

(** The calls into the libraries among [es], in order. *)
Definition library_calls (es : list Event) : list Event :=
  filter (fun e => match e with Enter _ => false | _ => true end) es.

(** ** The component *)

Record Button := { disabled : bool; label : string }.

Record Dom := {
  backBtn : option Button;
  nextBtn : option Button;
  commitInfo : option string;
  status : option string;
  content : string;
  contentAnimation : option string }.

Record Component := {
  currentIndex : Z;
  fetchFailed : bool;
  isFetching : bool;
  loadingMore : bool;
  log : list LogEntry;
  branch : string;
  fetchStep : jsval;
  fetchThreshold : Z;
  initialDepth : Z;
  repoUrl : string;
  dom : Dom }.

Record Globals := {
  g_fs : option fs_handle;
  g_pfs : option pfs_handle;
  g_dir : option string }.

Record World (X : Type) := {
  this : Component;
  globalThis : Globals;
  ext : X }.
Arguments this {X}.
Arguments globalThis {X}.
Arguments ext {X}.
Arguments Build_World {X}.

(** Field assignments. *)
Definition set_currentIndex (v : Z) (c : Component) : Component :=
  {| currentIndex := v; fetchFailed := fetchFailed c; isFetching := isFetching c;
     loadingMore := loadingMore c; log := log c; branch := branch c;
     fetchStep := fetchStep c; fetchThreshold := fetchThreshold c;
     initialDepth := initialDepth c; repoUrl := repoUrl c; dom := dom c |}.

Definition set_fetchFailed (v : bool) (c : Component) : Component :=
  {| currentIndex := currentIndex c; fetchFailed := v; isFetching := isFetching c;
     loadingMore := loadingMore c; log := log c; branch := branch c;
     fetchStep := fetchStep c; fetchThreshold := fetchThreshold c;
     initialDepth := initialDepth c; repoUrl := repoUrl c; dom := dom c |}.

Definition set_isFetching (v : bool) (c : Component) : Component :=
  {| currentIndex := currentIndex c; fetchFailed := fetchFailed c; isFetching := v;
     loadingMore := loadingMore c; log := log c; branch := branch c;
     fetchStep := fetchStep c; fetchThreshold := fetchThreshold c;
     initialDepth := initialDepth c; repoUrl := repoUrl c; dom := dom c |}.

Definition set_loadingMore (v : bool) (c : Component) : Component :=
  {| currentIndex := currentIndex c; fetchFailed := fetchFailed c;
     isFetching := isFetching c; loadingMore := v; log := log c; branch := branch c;
     fetchStep := fetchStep c; fetchThreshold := fetchThreshold c;
     initialDepth := initialDepth c; repoUrl := repoUrl c; dom := dom c |}.

Definition set_log (v : list LogEntry) (c : Component) : Component :=
  {| currentIndex := currentIndex c; fetchFailed := fetchFailed c;
     isFetching := isFetching c; loadingMore := loadingMore c; log := v;
     branch := branch c; fetchStep := fetchStep c; fetchThreshold := fetchThreshold c;
     initialDepth := initialDepth c; repoUrl := repoUrl c; dom := dom c |}.

Definition set_dom (v : Dom) (c : Component) : Component :=
  {| currentIndex := currentIndex c; fetchFailed := fetchFailed c;
     isFetching := isFetching c; loadingMore := loadingMore c; log := log c;
     branch := branch c; fetchStep := fetchStep c; fetchThreshold := fetchThreshold c;
     initialDepth := initialDepth c; repoUrl := repoUrl c; dom := v |}.

Definition set_backBtn (v : option Button) (d : Dom) : Dom :=
  {| backBtn := v; nextBtn := nextBtn d; commitInfo := commitInfo d;
     status := status d; content := content d;
     contentAnimation := contentAnimation d |}.

Definition set_nextBtn (v : option Button) (d : Dom) : Dom :=
  {| backBtn := backBtn d; nextBtn := v; commitInfo := commitInfo d;
     status := status d; content := content d;
     contentAnimation := contentAnimation d |}.

Definition set_commitInfo (v : option string) (d : Dom) : Dom :=
  {| backBtn := backBtn d; nextBtn := nextBtn d; commitInfo := v;
     status := status d; content := content d;
     contentAnimation := contentAnimation d |}.

Definition set_status (v : option string) (d : Dom) : Dom :=
  {| backBtn := backBtn d; nextBtn := nextBtn d; commitInfo := commitInfo d;
     status := v; content := content d;
     contentAnimation := contentAnimation d |}.

Definition set_content (v : string) (d : Dom) : Dom :=
  {| backBtn := backBtn d; nextBtn := nextBtn d; commitInfo := commitInfo d;
     status := status d; content := v;
     contentAnimation := contentAnimation d |}.

Definition set_contentAnimation (v : option string) (d : Dom) : Dom :=
  {| backBtn := backBtn d; nextBtn := nextBtn d; commitInfo := commitInfo d;
     status := status d; content := content d; contentAnimation := v |}.

(** ** Computations *)

Record Res (X A : Type) := {
  outcome : Outcome A;
  final : World X;
  events : list Event }.
Arguments outcome {X A}.
Arguments final {X A}.
Arguments events {X A}.
Arguments Build_Res {X A}.

Definition M (X A : Type) : Type := World X -> Res X A.

Section Monad.
Context {X : Type}.

Definition ret {A} (a : A) : M X A :=
  fun w => {| outcome := Ok a; final := w; events := [] |}.

Definition throw {A} (e : exn) : M X A :=
  fun w => {| outcome := Throw e; final := w; events := [] |}.

Definition bind {A B} (m : M X A) (k : A -> M X B) : M X B :=
  fun w =>
    match m w with
    | {| outcome := Ok a; final := w1; events := es |} =>
        match k a w1 with
        | {| outcome := o; final := w2; events := es' |} =>
            {| outcome := o; final := w2; events := es ++ es' |}
        end
    | {| outcome := Throw e; final := w1; events := es |} =>
        {| outcome := Throw e; final := w1; events := es |}
    end.

(** [try { m } catch { h }] *)
Definition try_catch {A} (m : M X A) (h : M X A) : M X A :=
  fun w =>
    match m w with
    | {| outcome := Ok a; final := w1; events := es |} =>
        {| outcome := Ok a; final := w1; events := es |}
    | {| outcome := Throw _; final := w1; events := es |} =>
        match h w1 with
        | {| outcome := o; final := w2; events := es' |} =>
            {| outcome := o; final := w2; events := es ++ es' |}
        end
    end.

(** [try { m } finally { f }]: [f] always runs; when it completes
    normally the outcome is the one of [m]. *)
Definition try_finally {A} (m : M X A) (f : M X unit) : M X A :=
  fun w =>
    match m w with
    | {| outcome := o; final := w1; events := es |} =>
        match f w1 with
        | {| outcome := Ok _; final := w2; events := es' |} =>
            {| outcome := o; final := w2; events := es ++ es' |}
        | {| outcome := Throw e; final := w2; events := es' |} =>
            {| outcome := Throw e; final := w2; events := es ++ es' |}
        end
    end.

Definition tell (e : Event) : M X unit :=
  fun w => {| outcome := Ok tt; final := w; events := [e] |}.

Definition get_this : M X Component :=
  fun w => {| outcome := Ok (this w); final := w; events := [] |}.

Definition get_globals : M X Globals :=
  fun w => {| outcome := Ok (globalThis w); final := w; events := [] |}.

Definition assign (f : Component -> Component) : M X unit :=
  fun w =>
    {| outcome := Ok tt;
       final := Build_World (f (this w)) (globalThis w) (ext w);
       events := [] |}.

Definition assign_dom (f : Dom -> Dom) : M X unit :=
  assign (fun c => set_dom (f (dom c)) c).

Definition assign_globals (f : Globals -> Globals) : M X unit :=
  fun w =>
    {| outcome := Ok tt;
       final := Build_World (this w) (f (globalThis w)) (ext w);
       events := [] |}.

(** A call into a library: logged, then answered by the oracle. *)
Definition call {A} (e : Event) (f : X -> Outcome A * X) : M X A :=
  fun w =>
    let (o, x) := f (ext w) in
    {| outcome := o;
       final := Build_World (this w) (globalThis w) x;
       events := [e] |}.
End Monad.

Declare Scope js_scope.
Delimit Scope js_scope with js.
Notation "x <- m ;; k" := (bind m (fun x => k))
  (at level 61, m at next level, right associativity) : js_scope.
Notation "m ;; k" := (bind m (fun _ => k))
  (at level 61, right associativity) : js_scope.
Local Open Scope js_scope.

(** ** JavaScript helpers *)

(** *** Numbers *)

(** The double nearest to the integer [x], ties going to the even
    significand: what [+] makes of an exact sum. *)
Definition round_double (x : Z) : Z :=
  let a := Z.abs x in
  let u := 2 ^ Z.max 0 (Z.log2 a - 52) in
  let q := a / u in
  let r := a mod u in
  let q' := if (u <? 2 * r) || ((2 * r =? u) && Z.odd q) then q + 1 else q in
  Z.sgn x * (q' * u).

Definition decimal (n : Z) : string := NilZero.string_of_int (Z.to_int n).

(** The multiple of a power of ten with the fewest digits that lies
    where the reals round to [x] ([lo2] and [hi2] are twice the ends of
    that interval, which has them when [closed]); the closest one when
    there are two, the even one when they are as close. [p] goes down
    from the power of ten of the first digit of [x]. *)
Fixpoint shortest (fuel : nat) (p x lo2 hi2 : Z) (closed : bool) : Z :=
  match fuel with
  | O => x
  | S fuel' =>
      let v1 := x / p * p in
      let v2 := v1 + p in
      let inside v :=
        if closed then (lo2 <=? 2 * v) && (2 * v <=? hi2)
        else (lo2 <? 2 * v) && (2 * v <? hi2) in
      match inside v1, inside v2 with
      | true, true =>
          if x - v1 <? v2 - x then v1
          else if v2 - x <? x - v1 then v2
          else if Z.even (v1 / p) then v1 else v2
      | true, false => v1
      | false, true => v2
      | false, false => shortest fuel' (p / 10) x lo2 hi2 closed
      end
  end.

(** The digits that [Number::toString] prints for the double [x > 0],
    as a number: [x] itself up to [2^53], where every integer is a
    double. *)
Definition shortest_decimal (x : Z) : Z :=
  if x <=? 2 ^ 53 then x
  else
    let u := 2 ^ (Z.log2 x - 52) in
    let m := x / u in
    let below := if m =? 2 ^ 52 then u / 2 else u in
    let d := String.length (decimal x) in
    shortest d (10 ^ Z.of_nat (d - 1)) x (2 * x - below) (2 * x + u) (Z.even m).

Fixpoint strip_zeros (s : string) : string :=
  match s with
  | String a r =>
      match strip_zeros r with
      | EmptyString =>
          if Ascii.eqb a "0" then EmptyString else String a EmptyString
      | r' => String a r'
      end
  | EmptyString => EmptyString
  end.

(** [d.ddde+n] *)
Definition exponent_form (v : Z) : string :=
  let ds := decimal v in
  let e := decimal (Z.of_nat (String.length ds) - 1) in
  match strip_zeros ds with
  | String a EmptyString => String a ("e+" ++ e)
  | String a r => String a ("." ++ r ++ "e+" ++ e)
  | EmptyString => ds
  end.

Definition str_pos (x : Z) : string :=
  let v := shortest_decimal x in
  if v <? 10 ^ 21 then decimal v else exponent_form v.

(** [`${n}`] for a number. *)
Definition str (n : Z) : string :=
  if n <? 0 then "-" ++ str_pos (- n) else str_pos n.

(** [`${v}`] *)
Definition template (v : jsval) : string :=
  match v with
  | JNumber n => str n
  | JInfinity negative => if negative then "-Infinity" else "Infinity"
  | JString s => s
  | JNull => "null"
  end.

(** [a + b] for a number [a]: the sum of two numbers, rounded; an
    infinity stays what it is; the concatenation with a text; [null]
    counts as 0. *)
Definition js_add (a : Z) (b : jsval) : jsval :=
  match b with
  | JNumber n => JNumber (round_double (a + n))
  | JInfinity negative => JInfinity negative
  | JString s => JString (str a ++ s)
  | JNull => JNumber (round_double a)
  end.

(** [`${dir}`] for a global that may be [undefined]. *)
Definition str_or_undefined (s : option string) : string :=
  match s with Some v => v | None => "undefined" end.

(** [l[i]]: [undefined] outside [0 .. l.length - 1]. *)
Definition js_index {A} (l : list A) (i : Z) : option A :=
  if i <? 0 then None else nth_error l (Z.to_nat i).

Definition len {A} (l : list A) : Z := Z.of_nat (List.length l).

(** *** White space

    What [String.prototype.trim] removes: the white space and the line
    terminators of the language, here in UTF-8. One byte: U+0009 to
    U+000D and U+0020. Two bytes: U+00A0. Three bytes: U+1680, U+2000 to
    U+200A, U+2028, U+2029, U+202F, U+205F, U+3000 and U+FEFF. *)
Definition is_space (a : ascii) : bool :=
  let n := nat_of_ascii a in
  ((9 <=? n) && (n <=? 13) || (n =? 32))%nat.

Definition is_space2 (a b : ascii) : bool :=
  ((nat_of_ascii a =? 194) && (nat_of_ascii b =? 160))%nat.

Definition is_space3 (a b c : ascii) : bool :=
  let x := nat_of_ascii a in
  let y := nat_of_ascii b in
  let z := nat_of_ascii c in
  ((x =? 225) && (y =? 154) && (z =? 128)
   || (x =? 226) && (y =? 128)
      && ((128 <=? z) && (z <=? 138) || (z =? 168) || (z =? 169) || (z =? 175))
   || (x =? 226) && (y =? 129) && (z =? 159)
   || (x =? 227) && (y =? 128) && (z =? 128)
   || (x =? 239) && (y =? 187) && (z =? 191))%nat.

(** Whether [s] begins with a white space character. *)
Definition starts_with_space (s : string) : bool :=
  match s with
  | String a (String b (String c _)) =>
      is_space a || is_space2 a b || is_space3 a b c
  | String a (String b EmptyString) => is_space a || is_space2 a b
  | String a EmptyString => is_space a
  | EmptyString => false
  end.

Fixpoint trimStart (s : string) : string :=
  match s with
  | String a r =>
      if is_space a then trimStart r
      else
        match r with
        | String b r2 =>
            if is_space2 a b then trimStart r2
            else
              match r2 with
              | String c r3 => if is_space3 a b c then trimStart r3 else s
              | EmptyString => s
              end
        | EmptyString => s
        end
  | EmptyString => EmptyString
  end.

(** Nothing but white space. *)
Fixpoint all_space (s : string) : bool :=
  match s with
  | String a r =>
      if is_space a then all_space r
      else
        match r with
        | String b r2 =>
            if is_space2 a b then all_space r2
            else
              match r2 with
              | String c r3 => is_space3 a b c && all_space r3
              | EmptyString => false
              end
        | EmptyString => false
        end
  | EmptyString => true
  end.

Fixpoint trimEnd (s : string) : string :=
  match s with
  | String a r => if all_space s then EmptyString else String a (trimEnd r)
  | EmptyString => EmptyString
  end.

Definition trim (s : string) : string := trimEnd (trimStart s).

(** [s.split("\n")[0]] *)
Fixpoint first_line (s : string) : string :=
  match s with
  | String a r =>
      if (nat_of_ascii a =? 10)%nat then EmptyString else String a (first_line r)
  | EmptyString => EmptyString
  end.

(** ** The program *)

(** The destructured parameter objects of the exported helpers. *)
Record RepoArgs := {
  r_fs : option fs_handle;
  r_http : http_handle;
  r_dir : option string;
  r_url : string;
  r_branch : string;
  r_depth : jsval }.

Record CommitsArgs := {
  gc_fs : option fs_handle;
  gc_dir : option string;
  gc_branch : string;
  gc_depth : jsval }.

Record CheckoutCommitArgs := {
  cc_fs : option fs_handle;
  cc_dir : option string;
  cc_oid : string }.

Record ReadIndexArgs := {
  ri_fs : option fs_handle;
  ri_pfs : option pfs_handle;
  ri_dir : option string }.

Definition clone_args_of (a : RepoArgs) : CloneArgs :=
  {| c_fs := r_fs a; c_http := r_http a; c_dir := r_dir a; c_url := r_url a;
     c_ref := r_branch a; c_singleBranch := true; c_depth := r_depth a;
     c_corsProxy := corsProxyUrl |}.

Definition fetch_args_of (a : RepoArgs) : FetchArgs :=
  {| f_fs := r_fs a; f_http := r_http a; f_dir := r_dir a; f_url := r_url a;
     f_ref := r_branch a; f_singleBranch := true; f_depth := r_depth a;
     f_shallow := None; f_corsProxy := corsProxyUrl |}.

Definition no_index_markup : string := "<em>No index.html found in commit</em>".

(** The errors of an assignment through an element that is not there:
    [this.commitInfo.textContent = ..] without [#commitInfo], and
    [this.shadowRoot.querySelector(..).style.animation = ..] with a closed
    shadow root or without an element of that class. The engine words the
    message; here it names the expression that is [null]. *)
Definition no_commitInfo : exn := TypeError "this.commitInfo".

Definition no_content_style : exn :=
  TypeError "this.shadowRoot.querySelector('.news-browser__content')".

Section Program.
Context {X : Type}.
(** The [git] object; it also carries the file system and the browser. *)
Variable git : Env X.

Definition git_clone_call (a : CloneArgs) : M X unit :=
  call (GitClone a) (git_clone git a).
Definition git_fetch_call (a : FetchArgs) : M X unit :=
  call (GitFetch a) (git_fetch git a).
Definition git_log_call (a : LogArgs) : M X (list LogEntry) :=
  call (GitLog a) (git_log git a).
Definition git_checkout_call (a : CheckoutArgs) : M X unit :=
  call (GitCheckout a) (git_checkout git a).

Definition cloneOrFetchRepo (a : RepoArgs) : M X unit :=
  try_catch
    (git_clone_call (clone_args_of a))
    (git_fetch_call (fetch_args_of a)).

Definition getCommits (a : CommitsArgs) : M X (list LogEntry) :=
  git_log_call {| l_fs := gc_fs a; l_dir := gc_dir a; l_ref := gc_branch a;
                  l_depth := gc_depth a |}.

Definition checkoutCommit (a : CheckoutCommitArgs) : M X unit :=
  git_checkout_call {| o_fs := cc_fs a; o_dir := cc_dir a; o_ref := cc_oid a;
                       o_force := Some true |}.

Definition readIndexFile (a : ReadIndexArgs) : M X string :=
  match ri_pfs a with
  | Some pfs =>
      let path := str_or_undefined (ri_dir a) ++ "/index.html" in
      call (ReadFile path "utf8") (pfs_readFile git pfs path "utf8")
  | None => throw (TypeError "pfs is undefined")
  end.

Definition updateStatus (msg : string) : M X unit :=
  assign_dom (fun d => set_status (option_map (fun _ => msg) (status d)) d).

Definition updateUI : M X unit :=
  tell (Enter MUpdateUI) ;;
  c <- get_this ;;
  match js_index (log c) (currentIndex c) with
  | Some entry =>
      match commitInfo (dom c) with
      | Some _ =>
          assign_dom (set_commitInfo (Some
            ("Commit " ++ str (currentIndex c + 1) ++ "/"
             ++ str (len (log c)) ++ ": "
             ++ first_line (trim (message (commit entry))))))
      | None => throw no_commitInfo
      end
  | None => ret tt
  end ;;
  c <- get_this ;;
  match backBtn (dom c), nextBtn (dom c) with
  | Some back, Some next =>
      assign_dom (set_backBtn (Some
        {| disabled := (currentIndex c >=? len (log c) - 1)
                       && (fetchFailed c || negb (loadingMore c));
           label := label back |})) ;;
      assign_dom (set_nextBtn (Some
        {| disabled := currentIndex c <=? 0; label := label next |})) ;;
      assign_dom (fun d => set_backBtn
        (option_map (fun b =>
           {| disabled := disabled b;
              label := if loadingMore c then "⬅ Loading older..."
                       else "⬅ Back (Older)" |}) (backBtn d)) d)
  | _, _ => ret tt
  end.

Definition prefetchMore : M X unit :=
  tell (Enter MPrefetchMore) ;;
  c <- get_this ;;
  if isFetching c || fetchFailed c || loadingMore c then ret tt
  else
    assign (set_loadingMore true) ;;
    assign (set_isFetching true) ;;
    g <- get_globals ;;
    let fs := g_fs g in
    let dir := g_dir g in
    let targetDepth := js_add (len (log c)) (fetchStep c) in
    updateStatus ("Fetching " ++ template (fetchStep c)
                  ++ " more commits... (" ++ template targetDepth
                  ++ " total)") ;;
    try_finally
      (try_catch
         (c1 <- get_this ;;
          git_fetch_call
            {| f_fs := fs; f_http := HttpWeb; f_dir := dir;
               f_url := repoUrl c1; f_ref := branch c1;
               f_singleBranch := true; f_depth := targetDepth;
               f_shallow := Some true; f_corsProxy := corsProxyUrl |} ;;
          c2 <- get_this ;;
          l <- git_log_call
                 {| l_fs := fs; l_dir := dir; l_ref := branch c2;
                    l_depth := targetDepth |} ;;
          assign (set_log l) ;;
          assign (set_fetchFailed false))
         (assign (set_fetchFailed true)))
      (assign (set_loadingMore false) ;;
       assign (set_isFetching false) ;;
       c3 <- get_this ;;
       updateStatus (if fetchFailed c3 then "Reached oldest commit" else "") ;;
       updateUI).

Definition displayCommit (index : Z) : M X unit :=
  tell (Enter (MDisplayCommit index)) ;;
  c <- get_this ;;
  if (index <? 0) || (index >=? len (log c)) then ret tt
  else
    g <- get_globals ;;
    let entry := js_index (log c) index in
    assign (set_currentIndex index) ;;
    match entry with
    | None => throw (TypeError "commit is undefined")
    | Some e =>
        checkoutCommit {| cc_fs := g_fs g; cc_dir := g_dir g; cc_oid := oid e |}
    end ;;
    try_catch
      (file <- readIndexFile {| ri_fs := g_fs g; ri_pfs := g_pfs g;
                                ri_dir := g_dir g |} ;;
       let body := parse_body git file in
       assign_dom (set_content (innerHTML_of git (cut_after_hr body))))
      (assign_dom (set_content no_index_markup)) ;;
    updateUI.

Definition showOlder : M X unit :=
  tell (Enter MShowOlder) ;;
  c <- get_this ;;
  let remaining := len (log c) - currentIndex c - 1 in
  (if (remaining <=? fetchThreshold c) && negb (fetchFailed c)
      && negb (loadingMore c)
   then prefetchMore else ret tt) ;;
  c1 <- get_this ;;
  if currentIndex c1 <? len (log c1) - 1 then
    assign (set_currentIndex (currentIndex c1 + 1)) ;;
    c2 <- get_this ;;
    displayCommit (currentIndex c2)
  else ret tt.

Definition showNewer : M X unit :=
  tell (Enter MShowNewer) ;;
  c <- get_this ;;
  if currentIndex c >? 0 then
    assign (set_currentIndex (currentIndex c - 1)) ;;
    c1 <- get_this ;;
    displayCommit (currentIndex c1)
  else ret tt.

Definition initializeRepo : M X unit :=
  tell (Enter MInitializeRepo) ;;
  g <- get_globals ;;
  let fs := match g_fs g with Some f => f | None => LightningFS "fs" end in
  assign_globals (fun g => {| g_fs := Some fs; g_pfs := g_pfs g; g_dir := g_dir g |}) ;;
  let pfs := match g_pfs g with Some p => p | None => fs_promises fs end in
  assign_globals (fun g => {| g_fs := g_fs g; g_pfs := Some pfs; g_dir := g_dir g |}) ;;
  assign_globals (fun g => {| g_fs := g_fs g; g_pfs := g_pfs g; g_dir := Some "/repo" |}) ;;
  try_catch (call (Mkdir "/repo") (pfs_mkdir git pfs "/repo")) (ret tt) ;;
  c <- get_this ;;
  updateStatus ("Loading " ++ str (initialDepth c) ++ " commits...") ;;
  c1 <- get_this ;;
  cloneOrFetchRepo {| r_fs := Some fs; r_http := HttpWeb; r_dir := Some "/repo";
                      r_url := repoUrl c1; r_branch := branch c1;
                      r_depth := JNumber (initialDepth c1) |} ;;
  c2 <- get_this ;;
  git_checkout_call {| o_fs := Some fs; o_dir := Some "/repo";
                       o_ref := "origin/" ++ branch c2; o_force := None |} ;;
  c3 <- get_this ;;
  l <- getCommits {| gc_fs := Some fs; gc_dir := Some "/repo";
                     gc_branch := "origin/" ++ branch c3;
                     gc_depth := JNumber (initialDepth c3) |} ;;
  assign (set_log l) ;;
  updateStatus "" ;;
  c4 <- get_this ;;
  match contentAnimation (dom c4) with
  | Some _ => assign_dom (set_contentAnimation (Some "none"))
  | None => throw no_content_style
  end ;;
  displayCommit 0.
End Program.

(** ** Construction and user actions *)

(** What the constructor reads: [getAttribute] for the two strings, and
    the result of [parseInt(getAttribute(..))] for the three numbers, with
    [None] for [NaN]. *)
Record Attributes := {
  attr_branch : option string;
  int_fetch_step : option Z;
  int_fetch_threshold : option Z;
  int_initial_depth : option Z;
  attr_repo_url : option string }.

(** [a || d] on strings and on numbers. *)
Definition str_or (a : option string) (d : string) : string :=
  match a with
  | Some EmptyString | None => d
  | Some s => s
  end.

Definition int_or (a : option Z) (d : Z) : Z :=
  match a with
  | Some 0 | None => d
  | Some n => n
  end.

(** The fields the constructor sets; [d] holds the elements that
    [connectedCallback] then looks up in the shadow tree. *)
Definition constructor (a : Attributes) (d : Dom) : Component :=
  {| currentIndex := 0;
     fetchFailed := false;
     isFetching := false;
     loadingMore := false;
     log := [];
     branch := str_or (attr_branch a) "main";
     fetchStep := JNumber (int_or (int_fetch_step a) 10);
     fetchThreshold := int_or (int_fetch_threshold a) 2;
     initialDepth := int_or (int_initial_depth a) 10;
     repoUrl := str_or (attr_repo_url a) "https://github.com/kherrick/news-summary";
     dom := d |}.

(** The operations on a connected component. Each one is a separate
    invocation: a rejected promise does not stop the next one. *)
Inductive Op :=
| OpShowOlder
| OpShowNewer
| OpPrefetchMore
| OpDisplayCommit (index : Z).

Definition run_op {X} (git : Env X) (o : Op) : M X unit :=
  match o with
  | OpShowOlder => showOlder git
  | OpShowNewer => showNewer git
  | OpPrefetchMore => prefetchMore git
  | OpDisplayCommit i => displayCommit git i
  end.

Fixpoint run_ops {X} (git : Env X) (ops : list Op) (w : World X)
  : World X * list Event :=
  match ops with
  | [] => (w, [])
  | o :: rest =>
      let r := run_op git o w in
      let (w', es) := run_ops git rest (final r) in
      (w', (events r ++ es)%list)
  end.

(** The states of a run that no step shortens the commit list in. *)
Fixpoint log_never_shrinks {X} (git : Env X) (ops : list Op) (w : World X)
  : Prop :=
  match ops with
  | [] => True
  | o :: rest =>
      let w' := final (run_op git o w) in
      (List.length (log (this w)) <= List.length (log (this w')))%nat
      /\ log_never_shrinks git rest w'
  end.

(** ** A simulated repository

    A small concrete oracle, used to run the program: a remote history
    (newest commit first), one [index.html] per commit, a network that is
    up or down, and a working tree. *)
Module Sim.

Record state := {
  remote : list LogEntry;
  files : list (string * string);
  online : bool;
  cloned : bool;
  head : option string }.

Definition with_cloned (b : bool) (x : state) : state :=
  {| remote := remote x; files := files x; online := online x;
     cloned := b; head := head x |}.

Definition with_head (h : option string) (x : state) : state :=
  {| remote := remote x; files := files x; online := online x;
     cloned := cloned x; head := h |}.

(** The depth a call asks for: a text counts for the number it spells. *)
Definition depth_of (v : jsval) : Z :=
  match v with
  | JNumber n => n
  | JInfinity negative => if negative then -1 else 2 ^ 1024
  | JString s =>
      match NilZero.uint_of_string s with
      | Some u => Z.of_N (N.of_uint u)
      | None => 0
      end
  | JNull => 0
  end.

Definition clone (a : CloneArgs) (x : state) : Outcome unit * state :=
  if online x && negb (cloned x) then (Ok tt, with_cloned true x)
  else (Throw (LibError "clone failed"), x).

Definition fetch (a : FetchArgs) (x : state) : Outcome unit * state :=
  if online x && cloned x then (Ok tt, x)
  else (Throw (LibError "fetch failed"), x).

Definition log (a : LogArgs) (x : state)
  : Outcome (list LogEntry) * state :=
  if cloned x
  then (Ok (firstn (Z.to_nat (Z.min (depth_of (l_depth a))
                                (Z.of_nat (List.length (remote x)))))
              (remote x)), x)
  else (Throw (LibError "not a repository"), x).

Definition checkout (a : CheckoutArgs) (x : state) : Outcome unit * state :=
  if cloned x then (Ok tt, with_head (Some (o_ref a)) x)
  else (Throw (LibError "not a repository"), x).

Definition mkdir (p : pfs_handle) (path : string) (x : state)
  : Outcome unit * state :=
  (Ok tt, x).

Fixpoint lookup (k : string) (l : list (string * string)) : option string :=
  match l with
  | [] => None
  | (k', v) :: r => if String.eqb k k' then Some v else lookup k r
  end.

Definition readFile (p : pfs_handle) (path enc : string) (x : state)
  : Outcome string * state :=
  match head x with
  | Some h =>
      match lookup h (files x) with
      | Some s => (Ok s, x)
      | None => (Throw (LibError "ENOENT"), x)
      end
  | None => (Throw (LibError "ENOENT"), x)
  end.

(** A parser for documents made of text and [<hr>] tags. *)
Definition flush (acc : string) : list Node :=
  match acc with
  | EmptyString => []
  | _ => [Text acc]
  end.

Fixpoint parse_from (s : string) (skip : nat) (acc : string) : list Node :=
  match s with
  | EmptyString => flush acc
  | String a r =>
      match skip with
      | S k => parse_from r k acc
      | O =>
          if String.prefix "<hr>" s
          then (flush acc ++ Elem "hr" [] [] :: parse_from r 3 EmptyString)%list
          else parse_from r 0 (acc ++ String a EmptyString)
      end
  end.

Definition parse (s : string) : list Node := parse_from s 0 EmptyString.

Fixpoint serialize (n : Node) : string :=
  match n with
  | Text s => s
  | Elem t _ cs =>
      if String.eqb t "hr" then "<hr>"
      else "<" ++ t ++ ">"
           ++ (fix all (l : list Node) : string :=
                 match l with
                 | [] => EmptyString
                 | c :: r => serialize c ++ all r
                 end) cs
           ++ "</" ++ t ++ ">"
  end.

Definition innerHTML (l : list Node) : string :=
  String.concat EmptyString (map serialize l).

Definition env : Env state :=
  {| git_clone := clone; git_fetch := fetch; git_log := log;
     git_checkout := checkout; pfs_mkdir := mkdir; pfs_readFile := readFile;
     parse_body := parse; innerHTML_of := innerHTML |}.

Definition entry (id msg : string) : LogEntry :=
  {| oid := id; commit := {| message := msg |} |}.

(** Five commits; the newest two have an [index.html] with a rule in
    it, the third one without, the others have none. *)
Definition history : list LogEntry :=
  [ entry "c5" "fifth"; entry "c4" "fourth"; entry "c3" "third";
    entry "c2" "second"; entry "c1" "first" ].

Definition site : list (string * string) :=
  [ ("c5", "news<hr>footer"); ("c4", "older news<hr>footer");
    ("c3", "no rule here") ].

Definition fresh : state :=
  {| remote := history; files := site; online := true; cloned := false;
     head := None |}.

Definition page : Dom :=
  {| backBtn := Some {| disabled := false; label := "back" |};
     nextBtn := Some {| disabled := false; label := "next" |};
     commitInfo := Some EmptyString;
     status := Some EmptyString;
     content := EmptyString;
     contentAnimation := Some EmptyString |}.

Definition no_globals : Globals :=
  {| g_fs := None; g_pfs := None; g_dir := None |}.

Definition attrs (depth threshold step : Z) : Attributes :=
  {| attr_branch := None; int_fetch_step := Some step;
     int_fetch_threshold := Some threshold;
     int_initial_depth := Some depth; attr_repo_url := None |}.

(** A page that loads [depth] commits at first. *)
Definition boot (depth threshold step : Z) : World state :=
  {| this := constructor (attrs depth threshold step) page;
     globalThis := no_globals; ext := fresh |}.

(** The same page once [initializeRepo] is through. *)
Definition started (depth threshold step : Z) : World state :=
  final (initializeRepo env (boot depth threshold step)).

(** The network goes down. *)
Definition unplug (w : World state) : World state :=
  {| this := this w; globalThis := globalThis w;
     ext := {| remote := remote (ext w); files := files (ext w);
               online := false; cloned := cloned (ext w);
               head := head (ext w) |} |}.

End Sim.


(** ** Vocabulary of the statements *)

Section Vocabulary.
Context {X : Type}.
Variable git : Env X.

Definition world (c : Component) (g : Globals) (x : X) : World X :=
  Build_World c g x.

(** The entry test of [prefetchMore]. *)
Definition busy (c : Component) : bool :=
  isFetching c || fetchFailed c || loadingMore c.

(** The test in [showOlder] that decides whether to prefetch. *)
Definition near_the_end (c : Component) : Prop :=
  len (log c) - currentIndex c - 1 <= fetchThreshold c
  /\ fetchFailed c = false
  /\ loadingMore c = false.

(** [targetDepth] and the two argument objects built from it. *)
Definition targetDepth (c : Component) : jsval :=
  js_add (len (log c)) (fetchStep c).

Definition prefetch_fetch_args (w : World X) : FetchArgs :=
  {| f_fs := g_fs (globalThis w); f_http := HttpWeb;
     f_dir := g_dir (globalThis w); f_url := repoUrl (this w);
     f_ref := branch (this w); f_singleBranch := true;
     f_depth := targetDepth (this w); f_shallow := Some true;
     f_corsProxy := corsProxyUrl |}.

Definition prefetch_log_args (w : World X) : LogArgs :=
  {| l_fs := g_fs (globalThis w); l_dir := g_dir (globalThis w);
     l_ref := branch (this w); l_depth := targetDepth (this w) |}.

(** C4 as it is written: the fetch asks for the sum of the number of
    commits loaded and the number in [fetchStep]. *)
Definition asks_for_the_sum (w : World X) : Prop :=
  forall k a,
    fetchStep (this w) = JNumber k ->
    In (GitFetch a) (events (prefetchMore git w)) ->
    f_depth a = JNumber (len (log (this w)) + k).

(** The flags as the [finally] block leaves them. *)
Definition idle (c : Component) : Component :=
  set_isFetching false (set_loadingMore false c).

(** There is a current commit and no [#commitInfo] to write its caption
    to: the state in which [updateUI] throws. *)
Definition lacks_commitInfo (c : Component) : bool :=
  match js_index (log c) (currentIndex c), commitInfo (dom c) with
  | Some _, None => true
  | _, _ => false
  end.

(** How a method ends that ends with [updateUI] on [c]. *)
Definition paint_outcome (c : Component) : Outcome unit :=
  if lacks_commitInfo c then Throw no_commitInfo else Ok tt.

(** The elements [updateUI] does not write, and which elements there
    are. *)
Definition same_frame (d d0 : Dom) : Prop :=
  content d = content d0
  /\ contentAnimation d = contentAnimation d0
  /\ (commitInfo d = None <-> commitInfo d0 = None).

(** A page [d] that differs from the page of [c] in what [updateUI]
    writes, and has [msg] as its status line. *)
Definition repainted (d : Dom) (c : Component) (msg : string) : Prop :=
  status d = option_map (fun _ => msg) (status (dom c))
  /\ same_frame d (dom c).

(** The four ways one call of [prefetchMore] can go. It ends with
    [updateUI], whose outcome is its own. *)
Inductive prefetch_result (w : World X) : Res X unit -> Prop :=
| Prefetch_skipped :
    busy (this w) = true ->
    prefetch_result w
      {| outcome := Ok tt; final := w; events := [Enter MPrefetchMore] |}
| Prefetch_fetch_throws ex x1 d :
    busy (this w) = false ->
    git_fetch git (prefetch_fetch_args w) (ext w) = (Throw ex, x1) ->
    repainted d (this w) "Reached oldest commit" ->
    prefetch_result w
      {| outcome := paint_outcome (this w);
         final := world (set_dom d (idle (set_fetchFailed true (this w))))
                    (globalThis w) x1;
         events := [Enter MPrefetchMore; GitFetch (prefetch_fetch_args w);
                    Enter MUpdateUI] |}
| Prefetch_log_throws u ex x1 x2 d :
    busy (this w) = false ->
    git_fetch git (prefetch_fetch_args w) (ext w) = (Ok u, x1) ->
    git_log git (prefetch_log_args w) x1 = (Throw ex, x2) ->
    repainted d (this w) "Reached oldest commit" ->
    prefetch_result w
      {| outcome := paint_outcome (this w);
         final := world (set_dom d (idle (set_fetchFailed true (this w))))
                    (globalThis w) x2;
         events := [Enter MPrefetchMore; GitFetch (prefetch_fetch_args w);
                    GitLog (prefetch_log_args w); Enter MUpdateUI] |}
| Prefetch_done u l x1 x2 d :
    busy (this w) = false ->
    git_fetch git (prefetch_fetch_args w) (ext w) = (Ok u, x1) ->
    git_log git (prefetch_log_args w) x1 = (Ok l, x2) ->
    repainted d (this w) "" ->
    prefetch_result w
      {| outcome := paint_outcome (set_log l (this w));
         final := world
                    (set_dom d
                       (idle (set_fetchFailed false (set_log l (this w)))))
                    (globalThis w) x2;
         events := [Enter MPrefetchMore; GitFetch (prefetch_fetch_args w);
                    GitLog (prefetch_log_args w); Enter MUpdateUI] |}.

(** The entry test of [displayCommit]. *)
Definition out_of_range (c : Component) (index : Z) : bool :=
  (index <? 0) || (index >=? len (log c)).

Definition checkout_args (w : World X) (e : LogEntry) : CheckoutArgs :=
  {| o_fs := g_fs (globalThis w); o_dir := g_dir (globalThis w);
     o_ref := oid e; o_force := Some true |}.

Definition index_path (w : World X) : string :=
  str_or_undefined (g_dir (globalThis w)) ++ "/index.html".

(** What the content element gets for a file that was read. *)
Definition rendered (file : string) : string :=
  innerHTML_of git (cut_after_hr (parse_body git file)).

(** A page [d] that differs from the page of [c] in what [updateUI]
    writes, and has [html] in its content element. *)
Definition showing (d : Dom) (c : Component) (html : string) : Prop :=
  content d = html
  /\ status d = status (dom c)
  /\ contentAnimation d = contentAnimation (dom c)
  /\ (commitInfo d = None <-> commitInfo (dom c) = None).

(** The ways one call of [displayCommit] can go. Past the checkout it
    ends with [updateUI], whose outcome is its own. *)
Inductive display_result (w : World X) (index : Z) : Res X unit -> Prop :=
| Display_ignored :
    out_of_range (this w) index = true ->
    display_result w index
      {| outcome := Ok tt; final := w;
         events := [Enter (MDisplayCommit index)] |}
| Display_checkout_throws e ex x1 :
    out_of_range (this w) index = false ->
    js_index (log (this w)) index = Some e ->
    git_checkout git (checkout_args w e) (ext w) = (Throw ex, x1) ->
    display_result w index
      {| outcome := Throw ex;
         final := world (set_currentIndex index (this w)) (globalThis w) x1;
         events := [Enter (MDisplayCommit index);
                    GitCheckout (checkout_args w e)] |}
| Display_no_pfs e u x1 d :
    out_of_range (this w) index = false ->
    js_index (log (this w)) index = Some e ->
    git_checkout git (checkout_args w e) (ext w) = (Ok u, x1) ->
    g_pfs (globalThis w) = None ->
    showing d (this w) no_index_markup ->
    display_result w index
      {| outcome := paint_outcome (set_currentIndex index (this w));
         final := world (set_dom d (set_currentIndex index (this w)))
                    (globalThis w) x1;
         events := [Enter (MDisplayCommit index);
                    GitCheckout (checkout_args w e); Enter MUpdateUI] |}
| Display_read_throws e u x1 pfs ex x2 d :
    out_of_range (this w) index = false ->
    js_index (log (this w)) index = Some e ->
    git_checkout git (checkout_args w e) (ext w) = (Ok u, x1) ->
    g_pfs (globalThis w) = Some pfs ->
    pfs_readFile git pfs (index_path w) "utf8" x1 = (Throw ex, x2) ->
    showing d (this w) no_index_markup ->
    display_result w index
      {| outcome := paint_outcome (set_currentIndex index (this w));
         final := world (set_dom d (set_currentIndex index (this w)))
                    (globalThis w) x2;
         events := [Enter (MDisplayCommit index);
                    GitCheckout (checkout_args w e);
                    ReadFile (index_path w) "utf8"; Enter MUpdateUI] |}
| Display_rendered e u x1 pfs file x2 d :
    out_of_range (this w) index = false ->
    js_index (log (this w)) index = Some e ->
    git_checkout git (checkout_args w e) (ext w) = (Ok u, x1) ->
    g_pfs (globalThis w) = Some pfs ->
    pfs_readFile git pfs (index_path w) "utf8" x1 = (Ok file, x2) ->
    showing d (this w) (rendered file) ->
    display_result w index
      {| outcome := paint_outcome (set_currentIndex index (this w));
         final := world (set_dom d (set_currentIndex index (this w)))
                    (globalThis w) x2;
         events := [Enter (MDisplayCommit index);
                    GitCheckout (checkout_args w e);
                    ReadFile (index_path w) "utf8"; Enter MUpdateUI] |}.

(** The reading of the page that keeps the whole body of [index.html]. *)
Definition whole_body (file : string) : string :=
  innerHTML_of git (parse_body git file).

Definition renders_whole_body (w : World X) (index : Z) : Prop :=
  forall e u x1 pfs file x2,
    js_index (log (this w)) index = Some e ->
    git_checkout git (checkout_args w e) (ext w) = (Ok u, x1) ->
    g_pfs (globalThis w) = Some pfs ->
    pfs_readFile git pfs (index_path w) "utf8" x1 = (Ok file, x2) ->
    content (dom (this (final (displayCommit git index w)))) = whole_body file.

(** The globals as [initializeRepo] sets them: an existing file system is
    kept, a missing one is created. *)
Definition the_fs (g : Globals) : fs_handle :=
  match g_fs g with Some f => f | None => LightningFS "fs" end.

Definition the_pfs (g : Globals) : pfs_handle :=
  match g_pfs g with Some p => p | None => fs_promises (the_fs g) end.

Definition repo_globals (g : Globals) : Globals :=
  {| g_fs := Some (the_fs g); g_pfs := Some (the_pfs g);
     g_dir := Some "/repo" |}.

(** The component while the repository loads, and once [commits] are in. *)
Definition loading (c : Component) : Component :=
  set_dom
    (set_status
       (option_map (fun _ => "Loading " ++ str (initialDepth c) ++ " commits...")
          (status (dom c)))
       (dom c))
    c.

Definition listed (c : Component) (commits : list LogEntry) : Component :=
  set_dom (set_status (option_map (fun _ => "") (status (dom c))) (dom c))
    (set_log commits c).

Definition loaded (c : Component) (commits : list LogEntry) : Component :=
  set_dom
    (set_contentAnimation (Some "none")
       (set_status (option_map (fun _ => "") (status (dom c))) (dom c)))
    (set_log commits c).


(** The calls [displayCommit] can make. *)
Definition display_event (e : Event) : bool :=
  match e with
  | Enter (MDisplayCommit _) | Enter MUpdateUI
  | GitCheckout _ | ReadFile _ _ => true
  | _ => false
  end.

(** The index stays inside the commit list. *)
Definition index_in_log (c : Component) : Prop :=
  0 <= currentIndex c
  /\ (log c <> [] -> currentIndex c <= len (log c) - 1).

(** The same, with index 0 for an empty list: what a run maintains. *)
Definition index_within (c : Component) : Prop :=
  0 <= currentIndex c <= Z.max 0 (len (log c) - 1).

(** The world as [showOlder] sees it after its conditional prefetch. *)
Definition after_prefetch (w : World X) : World X :=
  let c := this w in
  if (len (log c) - currentIndex c - 1 <=? fetchThreshold c)
     && negb (fetchFailed c) && negb (loadingMore c)
  then final (prefetchMore git w)
  else w.

(** How the prefetch that [showOlder] awaits ends; [Ok] when it asks
    for none. *)
Definition awaited_prefetch (w : World X) : Outcome unit :=
  let c := this w in
  if (len (log c) - currentIndex c - 1 <=? fetchThreshold c)
     && negb (fetchFailed c) && negb (loadingMore c)
  then outcome (prefetchMore git w)
  else Ok tt.



(** The states of a connected component: the constructed one, and what
    [initializeRepo] and the operations make of it. *)
Inductive reachable : World X -> Prop :=
| Reach_constructed a d g x :
    reachable (world (constructor a d) g x)
| Reach_initializeRepo w :
    reachable w -> reachable (final (initializeRepo git w))
| Reach_op o w :
    reachable w -> reachable (final (run_op git o w)).

End Vocabulary.

(** ** Vocabulary of the page *)

(** The caption [updateUI] writes for the entry [e] at the current index,
    and the state it gives the [Back] button. *)
Definition caption (c : Component) (e : LogEntry) : string :=
  "Commit " ++ str (currentIndex c + 1) ++ "/" ++ str (len (log c)) ++ ": "
  ++ first_line (trim (message (commit e))).

Definition back_button (c : Component) : Button :=
  {| disabled := (currentIndex c >=? len (log c) - 1)
                 && (fetchFailed c || negb (loadingMore c));
     label := if loadingMore c then "⬅ Loading older..."
              else "⬅ Back (Older)" |}.

(** The page shows the state: the caption is the one of the current
    commit, and the buttons, when both exist, are enabled as the index
    demands. *)
Definition in_sync (c : Component) : Prop :=
  (forall e, js_index (log c) (currentIndex c) = Some e ->
             commitInfo (dom c) = Some (caption c e))
  /\ (forall b n, backBtn (dom c) = Some b -> nextBtn (dom c) = Some n ->
                  b = back_button c
                  /\ disabled n = (currentIndex c <=? 0)).

(** Whether one of the two buttons is missing from the page. *)
Definition lacks_a_button (d : Dom) : bool :=
  match backBtn d, nextBtn d with
  | Some _, Some _ => false
  | _, _ => true
  end.

(** The calls among [es] that satisfy [p], counted. *)
Definition count_calls (p : Event -> bool) (es : list Event) : nat :=
  List.length (filter p es).

Definition is_log (e : Event) : bool :=
  match e with GitLog _ => true | _ => false end.

Definition is_checkout (e : Event) : bool :=
  match e with GitCheckout _ => true | _ => false end.

Definition is_clone (e : Event) : bool :=
  match e with GitClone _ => true | _ => false end.

Definition is_read (e : Event) : bool :=
  match e with ReadFile _ _ => true | _ => false end.


(** ** Attributes reflected onto properties *)

(** [static get observedAttributes()] *)
Definition observedAttributes : list string :=
  ["repo-url"; "branch"; "initial-depth"; "fetch-threshold"; "fetch-step"].

Definition is_lower (a : ascii) : bool :=
  let n := nat_of_ascii a in ((97 <=? n) && (n <=? 122))%nat.

(** [c.toUpperCase()] for a letter matched by [[a-z]]. *)
Definition upper (a : ascii) : ascii := ascii_of_nat (nat_of_ascii a - 32).

Definition is_hyphen (a : ascii) : bool := (nat_of_ascii a =? 45)%nat.

(** [name.replace(/-([a-z])/g, (_, c) => c.toUpperCase())] *)
Fixpoint propName_of (name : string) : string :=
  match name with
  | EmptyString => EmptyString
  | String a t =>
      match t with
      | String c r =>
          if is_hyphen a && is_lower c then String (upper c) (propName_of r)
          else String a (propName_of t)
      | EmptyString => String a EmptyString
      end
  end.

Definition same_attribute_value (a b : option string) : bool :=
  match a, b with
  | None, None => true
  | Some s, Some t => String.eqb s t
  | _, _ => false
  end.

Definition attribute_value (v : option string) : jsval :=
  match v with Some s => JString s | None => JNull end.

(** [attributeChangedCallback(name, oldValue, newValue)]: the assignment
    [this[propName] = parseInt(newValue) || newValue] it makes, if any.
    [parsed] is [parseInt(newValue)], with [None] for [NaN]. *)
Definition attributeChangedCallback (name : string)
    (oldValue newValue : option string) (parsed : option Z)
  : option (string * jsval) :=
  if same_attribute_value oldValue newValue then None
  else
    Some (propName_of name,
          match parsed with
          | Some 0 | None => attribute_value newValue
          | Some n => JNumber n
          end).

(** ** The life cycle of the element *)

(** The two closures [() => this.showOlder()] and [() => this.showNewer()],
    told apart by the order of their creation. *)
Inductive Handler :=
| OlderHandler (id : nat)
| NewerHandler (id : nat).

Definition same_handler (a b : Handler) : bool :=
  match a, b with
  | OlderHandler i, OlderHandler j => Nat.eqb i j
  | NewerHandler i, NewerHandler j => Nat.eqb i j
  | _, _ => false
  end.

(** What the element holds besides the paging state: [#connected]; whether
    the constructor found a shadow root and whether [#content] is in it;
    whether [this.backBtn] and [this.nextBtn] hold an element (they are
    looked up by the first [connectedCallback]); the two handlers; the
    [click] listeners of the two buttons; what went to [console.error].
    [this.abortController] is assigned nowhere in the file, so the branch
    of [disconnectedCallback] on it never runs. *)
Record Host := {
  connected : bool;
  has_shadow : bool;
  has_content : bool;
  found_backBtn : bool;
  found_nextBtn : bool;
  showOlderHandler : option Handler;
  showNewerHandler : option Handler;
  closures : nat;
  back_listeners : list Handler;
  next_listeners : list Handler;
  console : list string }.

(** A listener is registered once. *)
Definition addEventListener (f : Handler) (l : list Handler) : list Handler :=
  if existsb (same_handler f) l then l else (l ++ [f])%list.

Definition removeEventListener (f : option Handler) (l : list Handler)
  : list Handler :=
  match f with
  | Some g => filter (fun k => negb (same_handler g k)) l
  | None => l
  end.

Definition is_some {A} (o : option A) : bool :=
  match o with Some _ => true | None => false end.

Record Life (X : Type) := {
  host_after : Host;
  world_after : World X;
  calls : list Event }.
Arguments host_after {X}.
Arguments world_after {X}.
Arguments calls {X}.
Arguments Build_Life {X}.

Inductive LifeOp :=
| Connect
| Disconnect
| Adopt
| ClickBack
| ClickNext.

Section LifeCycle.
Context {X : Type}.
Variable git : Env X.

(** The promise of [initializeRepo] is not awaited: a rejection does not
    reach [connectedCallback]. *)
Definition connectedCallback (h : Host) (w : World X) : Life X :=
  if connected h then {| host_after := h; world_after := w; calls := [] |}
  else
    let older := OlderHandler (closures h) in
    let newer := NewerHandler (S (closures h)) in
    let back := has_shadow h && is_some (backBtn (dom (this w))) in
    let next := has_shadow h && is_some (nextBtn (dom (this w))) in
    if negb (has_shadow h) || negb (has_content h) then
      {| host_after :=
           {| connected := true; has_shadow := has_shadow h;
              has_content := has_content h;
              found_backBtn := back; found_nextBtn := next;
              showOlderHandler := Some older; showNewerHandler := Some newer;
              closures := S (S (closures h));
              back_listeners := back_listeners h;
              next_listeners := next_listeners h;
              console :=
                (console h ++ ["Shadow DOM or #content not found"])%list |};
         world_after := w; calls := [] |}
    else
      let r := initializeRepo git w in
      {| host_after :=
           {| connected := true; has_shadow := has_shadow h;
              has_content := has_content h;
              found_backBtn := back; found_nextBtn := next;
              showOlderHandler := Some older; showNewerHandler := Some newer;
              closures := S (S (closures h));
              back_listeners :=
                if back then addEventListener older (back_listeners h)
                else back_listeners h;
              next_listeners :=
                if next then addEventListener newer (next_listeners h)
                else next_listeners h;
              console := console h |};
         world_after := final r; calls := events r |}.

Definition adoptedCallback (h : Host) (w : World X) : Life X :=
  connectedCallback h w.

Definition disconnectedCallback (h : Host) (w : World X) : Life X :=
  {| host_after :=
       {| connected := connected h; has_shadow := has_shadow h;
          has_content := has_content h;
          found_backBtn := found_backBtn h; found_nextBtn := found_nextBtn h;
          showOlderHandler := showOlderHandler h;
          showNewerHandler := showNewerHandler h;
          closures := closures h;
          back_listeners :=
            if found_backBtn h
            then removeEventListener (showOlderHandler h) (back_listeners h)
            else back_listeners h;
          next_listeners :=
            if found_nextBtn h
            then removeEventListener (showNewerHandler h) (next_listeners h)
            else next_listeners h;
          console := console h |};
     world_after := w; calls := [] |}.

(** A [click] event on a button runs its listeners in the order of their
    registration; what a handler returns is dropped. (The browser sends no
    such event to a disabled button.) *)
Definition handle (f : Handler) : M X unit :=
  match f with
  | OlderHandler _ => showOlder git
  | NewerHandler _ => showNewer git
  end.

Fixpoint dispatch (l : list Handler) (w : World X) : World X * list Event :=
  match l with
  | [] => (w, [])
  | f :: rest =>
      let r := handle f w in
      let (w', es) := dispatch rest (final r) in
      (w', (events r ++ es)%list)
  end.

Definition click (l : list Handler) (h : Host) (w : World X) : Life X :=
  let (w', es) := dispatch l w in
  {| host_after := h; world_after := w'; calls := es |}.

Definition life_step (o : LifeOp) (h : Host) (w : World X) : Life X :=
  match o with
  | Connect => connectedCallback h w
  | Disconnect => disconnectedCallback h w
  | Adopt => adoptedCallback h w
  | ClickBack => click (back_listeners h) h w
  | ClickNext => click (next_listeners h) h w
  end.

Fixpoint life_run (ops : list LifeOp) (h : Host) (w : World X) : Life X :=
  match ops with
  | [] => {| host_after := h; world_after := w; calls := [] |}
  | o :: rest =>
      let r := life_step o h w in
      let r' := life_run rest (host_after r) (world_after r) in
      {| host_after := host_after r'; world_after := world_after r';
         calls := (calls r ++ calls r')%list |}
  end.

End LifeCycle.

(** The element as the constructor leaves it. *)
Definition new_host (shadow content : bool) : Host :=
  {| connected := false; has_shadow := shadow; has_content := content;
     found_backBtn := false; found_nextBtn := false;
     showOlderHandler := None; showNewerHandler := None; closures := 0;
     back_listeners := []; next_listeners := []; console := [] |}.

(** The listeners of a button: none, or the current handler alone, on a
    button that was found. *)
Definition wired_to (f : option Handler) (found : bool) (l : list Handler)
  : Prop :=
  l = [] \/ (found = true /\ exists g, f = Some g /\ l = [g]).

Definition wired (h : Host) : Prop :=
  wired_to (showOlderHandler h) (found_backBtn h) (back_listeners h)
  /\ wired_to (showNewerHandler h) (found_nextBtn h) (next_listeners h)
  /\ (connected h = false -> back_listeners h = [] /\ next_listeners h = []).

Definition is_initializeRepo (e : Event) : bool :=
  match e with Enter MInitializeRepo => true | _ => false end.

(** A hyphen directly before a lower-case letter, somewhere in [s]. *)
Fixpoint has_hyphen_lower (s : string) : bool :=
  match s with
  | EmptyString => false
  | String a t =>
      match t with
      | String c _ => (is_hyphen a && is_lower c) || has_hyphen_lower t
      | EmptyString => false
      end
  end.

Fixpoint has_hyphen (s : string) : bool :=
  match s with
  | EmptyString => false
  | String a t => is_hyphen a || has_hyphen t
  end.

Definition head_is_lower (s : string) : bool :=
  match s with
  | String a _ => is_lower a
  | EmptyString => false
  end.

(** ** More simulated worlds *)

(** The clone directory is gone. *)
Definition wiped (w : World Sim.state) : World Sim.state :=
  {| this := this w; globalThis := globalThis w;
     ext := Sim.with_cloned false (ext w) |}.

(** A remote that has no commit yet. *)
Definition bare (depth threshold step : Z) : World Sim.state :=
  {| this := constructor (Sim.attrs depth threshold step) Sim.page;
     globalThis := Sim.no_globals;
     ext := {| Sim.remote := []; Sim.files := []; Sim.online := true;
               Sim.cloned := false; Sim.head := None |} |}.



(** The same component once [attributeChangedCallback] has stored [v] in
    [fetchStep]. *)
Definition with_fetchStep (v : jsval) (w : World Sim.state)
  : World Sim.state :=
  {| this :=
       {| currentIndex := currentIndex (this w);
          fetchFailed := fetchFailed (this w);
          isFetching := isFetching (this w);
          loadingMore := loadingMore (this w);
          log := log (this w); branch := branch (this w);
          fetchStep := v; fetchThreshold := fetchThreshold (this w);
          initialDepth := initialDepth (this w);
          repoUrl := repoUrl (this w); dom := dom (this w) |};
     globalThis := globalThis w; ext := ext w |}.

(** The same page without its [Next] button. *)
Definition without_next (w : World Sim.state) : World Sim.state :=
  {| this := set_dom (set_nextBtn None (dom (this w))) (this w);
     globalThis := globalThis w; ext := ext w |}.

(** * Properties *)

Create HintDb js_unfold.
#[global] Hint Unfold
  ret throw bind try_catch try_finally tell get_this get_globals assign
  assign_dom assign_globals call
  git_clone_call git_fetch_call git_log_call git_checkout_call
  getCommits checkoutCommit readIndexFile updateStatus
  : js_unfold.

(** Case analysis on whatever blocks evaluation: a test, an answer of the
    oracle, an optional element. *)
Ltac break_step :=
  match goal with
  | |- context [match ?x with _ => _ end] =>
      lazymatch x with
      | context [match _ with _ => _ end] => fail
      | _ => let E := fresh "E" in destruct x eqn:E; cbn in *
      end
  end.

Ltac break_all := cbn in *; repeat (break_step; try discriminate).

Ltac open_world w :=
  let c := fresh "c" in
  let g := fresh "g" in
  let x := fresh "x" in
  destruct w as [c g x]; destruct c; cbn in *.

Ltac run_updateUI lemma :=
  match goal with
  | |- context [updateUI ?w'] =>
      let d := fresh "d" in
      let Hc := fresh "Hc" in
      let Hs := fresh "Hs" in
      let Ha := fresh "Ha" in
      let Hi := fresh "Hi" in
      destruct (lemma w') as (d & -> & Hc & Hs & Ha & Hi); cbn in *
  end.

(** The outcome of [updateUI] at the end of a method: both cases, then
    folded back. *)
Ltac split_paint :=
  match goal with
  | |- context [match paint_outcome ?c with _ => _ end] =>
      let P := fresh "P" in
      destruct (paint_outcome c) as [[]|?] eqn:P; cbn; rewrite <- P
  end.

Arguments paint_outcome : simpl never.

(** ** Numbers *)

(** Up to [2^53] every integer is a double: a sum that stays there is
    exact. *)
Lemma round_double_exact (x : Z) :
  Z.abs x <= 2 ^ 53 -> round_double x = x.
Proof.
  intros H. unfold round_double.
  destruct (Z.eq_dec (Z.abs x) (2 ^ 53)) as [E|E].
  - assert (Hx : x = 2 ^ 53 \/ x = - 2 ^ 53) by lia.
    destruct Hx as [-> | ->]; vm_compute; reflexivity.
  - assert (L : Z.log2 (Z.abs x) - 52 <= 0).
    { destruct (Z.eq_dec (Z.abs x) 0) as [Z0|Z0]; [rewrite Z0; cbn; lia |].
      assert (Z.log2 (Z.abs x) < 53) by (apply Z.log2_lt_pow2; lia). lia. }
    rewrite Z.max_l by lia.
    change (2 ^ 0) with 1. rewrite Z.div_1_r, Z.mod_1_r. cbn [Z.mul].
    change (1 <? 0) with false. change (0 =? 1) with false. cbn [orb andb].
    rewrite Z.mul_1_r. destruct x; cbn; lia.
Qed.

Section Facts.
Context {X : Type}.
Variable git : Env X.

(** ** Single calls *)

(** [updateUI] touches the buttons and the commit caption only; it
    throws when it has a caption to write and no [#commitInfo]. *)
Lemma updateUI_spec (w : World X) :
  exists d,
    updateUI w
    = {| outcome := paint_outcome (this w);
         final := world (set_dom d (this w)) (globalThis w) (ext w);
         events := [Enter MUpdateUI] |}
    /\ content d = content (dom (this w))
    /\ status d = status (dom (this w))
    /\ contentAnimation d = contentAnimation (dom (this w))
    /\ (commitInfo d = None <-> commitInfo (dom (this w)) = None).
Proof.
  open_world w. unfold updateUI, paint_outcome, lacks_commitInfo.
  autounfold with js_unfold.
  break_all; eexists; (split; [reflexivity |]); cbn;
    repeat split; auto; congruence.
Qed.

Local Opaque updateUI.

Lemma option_map_const {A B C} (a : C) (b : B) (o : option A) :
  option_map (fun _ => a) (option_map (fun _ => b) o)
  = option_map (fun _ => a) o.
Proof. now destruct o. Qed.

Lemma prefetchMore_result (w : World X) :
  prefetch_result git w (prefetchMore git w).
Proof.
  destruct (busy (this w)) eqn:B.
  - replace (prefetchMore git w)
      with {| outcome := Ok tt; final := w; events := [Enter MPrefetchMore] |}.
    + now constructor.
    + revert B. unfold busy. open_world w. intros B.
      unfold prefetchMore. autounfold with js_unfold. cbn.
      now rewrite B.
  - destruct (git_fetch git (prefetch_fetch_args w) (ext w))
      as [[u|ex] x1] eqn:F;
      [destruct (git_log git (prefetch_log_args w) x1) as [[l|ex] x2] eqn:L |].
    all: revert B F; try revert L.
    all: unfold busy, prefetch_fetch_args, prefetch_log_args, targetDepth.
    all: open_world w; intros.
    all: unfold prefetchMore; autounfold with js_unfold; cbn.
    all: rewrite B; cbn; rewrite F; cbn; try (rewrite L; cbn).
    all: run_updateUI (@updateUI_spec).
    all: rewrite option_map_const in Hs.
    all: split_paint.
    all: match goal with
         | |- prefetch_result _ ?W _ =>
             first
               [ exact (Prefetch_done git W u l x1 x2 d B F L
                          (conj Hs (conj Hc (conj Ha Hi))))
               | exact (Prefetch_log_throws git W u ex x1 x2 d B F L
                          (conj Hs (conj Hc (conj Ha Hi))))
               | exact (Prefetch_fetch_throws git W ex x1 d B F
                          (conj Hs (conj Hc (conj Ha Hi)))) ]
         end.
Qed.

Lemma js_index_in_range {A} (l : list A) (i : Z) :
  0 <= i < len l -> exists a, js_index l i = Some a.
Proof.
  unfold js_index, len. intros [H0 H1].
  destruct (Z.ltb_spec i 0) as [|_]; [lia |].
  destruct (nth_error l (Z.to_nat i)) as [a|] eqn:E; [eauto |].
  apply nth_error_None in E. lia.
Qed.

Lemma out_of_range_false (c : Component) (i : Z) :
  out_of_range c i = false <-> 0 <= i < len (log c).
Proof.
  unfold out_of_range. rewrite orb_false_iff, Z.ltb_ge, Z.geb_leb, Z.leb_gt.
  tauto.
Qed.

Lemma out_of_range_true (c : Component) (i : Z) :
  out_of_range c i = true <-> i < 0 \/ len (log c) <= i.
Proof.
  unfold out_of_range. rewrite orb_true_iff, Z.ltb_lt, Z.geb_leb, Z.leb_le.
  tauto.
Qed.

Lemma displayCommit_result (w : World X) (index : Z) :
  display_result git w index (displayCommit git index w).
Proof.
  destruct (out_of_range (this w) index) eqn:R.
  - replace (displayCommit git index w)
      with {| outcome := Ok tt; final := w;
              events := [Enter (MDisplayCommit index)] |}.
    + now constructor.
    + revert R. unfold out_of_range. open_world w. intros R.
      unfold displayCommit. autounfold with js_unfold. cbn.
      now rewrite R.
  - destruct (js_index_in_range (log (this w)) index) as [e He];
      [now apply out_of_range_false |].
    destruct (git_checkout git (checkout_args w e) (ext w))
      as [[u|ex] x1] eqn:C.
    + destruct (g_pfs (globalThis w)) as [pfs|] eqn:P;
        [destruct (pfs_readFile git pfs (index_path w) "utf8" x1)
           as [[file|ex] x2] eqn:F |].
      all: revert R He C P; try revert F.
      all: unfold out_of_range, checkout_args, index_path, rendered.
      all: open_world w; intros.
      all: unfold displayCommit; autounfold with js_unfold; cbn.
      all: rewrite R, He; cbn; rewrite C; cbn; rewrite P; cbn.
      all: try (rewrite F; cbn).
      all: run_updateUI (@updateUI_spec).
      all: match goal with
           | |- display_result _ ?W _ _ =>
               first
                 [ exact (Display_rendered git W index e u x1 pfs file x2 d
                            R He C P F (conj Hc (conj Hs (conj Ha Hi))))
                 | exact (Display_read_throws git W index e u x1 pfs ex x2 d
                            R He C P F (conj Hc (conj Hs (conj Ha Hi))))
                 | exact (Display_no_pfs git W index e u x1 d
                            R He C P (conj Hc (conj Hs (conj Ha Hi)))) ]
           end.
    + revert R He C. unfold out_of_range, checkout_args.
      open_world w; intros.
      unfold displayCommit; autounfold with js_unfold; cbn.
      rewrite R, He; cbn; rewrite C; cbn.
      match goal with
      | |- display_result _ ?W _ _ =>
          exact (Display_checkout_throws git W index e ex x1 R He C)
      end.
Qed.

Local Opaque prefetchMore displayCommit.

(** *** What a call leaves alone *)




Lemma prefetchMore_keeps (w : World X) :
  let c' := this (final (prefetchMore git w)) in
  currentIndex c' = currentIndex (this w)
  /\ fetchThreshold c' = fetchThreshold (this w)
  /\ fetchStep c' = fetchStep (this w)
  /\ globalThis (final (prefetchMore git w)) = globalThis w.
Proof. destruct (prefetchMore_result w); cbn; auto. Qed.


Lemma prefetchMore_enters (w : World X) :
  In (Enter MPrefetchMore) (events (prefetchMore git w)).
Proof. destruct (prefetchMore_result w); cbn; auto. Qed.

Lemma prefetchMore_no_fetch_when_busy (w : World X) (a : FetchArgs) :
  busy (this w) = true -> ~ In (GitFetch a) (events (prefetchMore git w)).
Proof.
  intros B. destruct (prefetchMore_result w); try congruence.
  cbn. intros [Habs|[]]. discriminate Habs.
Qed.

Lemma paint_outcome_ok (c : Component) :
  paint_outcome c = Ok tt -> lacks_commitInfo c = false.
Proof.
  unfold paint_outcome. destruct (lacks_commitInfo c);
    [discriminate | reflexivity].
Qed.

Lemma paint_outcome_at (c : Component) (e : LogEntry) :
  js_index (log c) (currentIndex c) = Some e ->
  paint_outcome c
  = match commitInfo (dom c) with
    | Some _ => Ok tt
    | None => Throw no_commitInfo
    end.
Proof.
  unfold paint_outcome, lacks_commitInfo. intros ->.
  now destruct (commitInfo (dom c)).
Qed.

Lemma displayCommit_keeps (w : World X) (index : Z) :
  let c' := this (final (displayCommit git index w)) in
  log c' = log (this w)
  /\ fetchFailed c' = fetchFailed (this w)
  /\ isFetching c' = isFetching (this w)
  /\ loadingMore c' = loadingMore (this w)
  /\ fetchThreshold c' = fetchThreshold (this w)
  /\ fetchStep c' = fetchStep (this w)
  /\ currentIndex c'
     = (if out_of_range (this w) index then currentIndex (this w) else index).
Proof.
  destruct (displayCommit_result w index) as [R|? ? ? R|? ? ? ? R|? ? ? ? ? ? ? R|? ? ? ? ? ? ? R];
    cbn; rewrite R; repeat split; reflexivity.
Qed.

Lemma displayCommit_events (w : World X) (index : Z) :
  forallb display_event (events (displayCommit git index w)) = true.
Proof. destruct (displayCommit_result w index); reflexivity. Qed.

Lemma display_event_not (es : list Event) (e : Event) :
  forallb display_event es = true -> display_event e = false -> ~ In e es.
Proof.
  intros H He Hin. rewrite forallb_forall in H.
  specialize (H e Hin). congruence.
Qed.

(** *** The two paging handlers, one step unfolded *)

Lemma showOlder_eq (w : World X) :
  let c := this w in
  let test := (len (log c) - currentIndex c - 1 <=? fetchThreshold c)
              && negb (fetchFailed c) && negb (loadingMore c) in
  let pre := if test then events (prefetchMore git w) else [] in
  let w1 := after_prefetch git w in
  let c1 := this w1 in
  showOlder git w
  = match awaited_prefetch git w with
    | Throw ex =>
        {| outcome := Throw ex; final := w1;
           events := Enter MShowOlder :: pre |}
    | Ok _ =>
        if currentIndex c1 <? len (log c1) - 1 then
          let r := displayCommit git (currentIndex c1 + 1)
                     (world (set_currentIndex (currentIndex c1 + 1) c1)
                        (globalThis w1) (ext w1)) in
          {| outcome := outcome r; final := final r;
             events := Enter MShowOlder :: pre ++ events r |}
        else
          {| outcome := Ok tt; final := w1;
             events := Enter MShowOlder :: pre ++ [] |}
    end.
Proof.
  cbv zeta. unfold awaited_prefetch, after_prefetch, showOlder, world.
  autounfold with js_unfold.
  destruct w as [c g x]. cbn.
  destruct ((len (log c) - currentIndex c - 1 <=? fetchThreshold c)
            && negb (fetchFailed c) && negb (loadingMore c)).
  - destruct (prefetchMore git (Build_World c g x)) as [[[]|ex] [c1 g1 x1] es];
      cbn; break_all; reflexivity.
  - break_all; reflexivity.
Qed.

Lemma showNewer_eq (w : World X) :
  let c := this w in
  showNewer git w
  = if currentIndex c >? 0 then
      let r := displayCommit git (currentIndex c - 1)
                 (world (set_currentIndex (currentIndex c - 1) c)
                    (globalThis w) (ext w)) in
      {| outcome := outcome r; final := final r;
         events := Enter MShowNewer :: events r |}
    else
      {| outcome := Ok tt; final := w; events := [Enter MShowNewer] |}.
Proof.
  cbv zeta. unfold showNewer, world. autounfold with js_unfold.
  destruct w as [c g x]. cbn.
  break_all; reflexivity.
Qed.

Local Opaque showOlder showNewer.

Lemma near_the_end_test (c : Component) :
  (len (log c) - currentIndex c - 1 <=? fetchThreshold c)
  && negb (fetchFailed c) && negb (loadingMore c) = true
  <-> near_the_end c.
Proof.
  unfold near_the_end.
  rewrite !andb_true_iff, !negb_true_iff, Z.leb_le. tauto.
Qed.

Lemma showOlder_events (w : World X) :
  exists shown,
    forallb display_event shown = true
    /\ events (showOlder git w)
       = Enter MShowOlder
         :: (if (len (log (this w)) - currentIndex (this w) - 1
                 <=? fetchThreshold (this w))
                && negb (fetchFailed (this w)) && negb (loadingMore (this w))
             then events (prefetchMore git w) else [])
         ++ shown.
Proof.
  rewrite showOlder_eq. cbv zeta.
  destruct (awaited_prefetch git w);
    [| exists []; split; [reflexivity | now rewrite app_nil_r]].
  destruct (currentIndex (this (after_prefetch git w))
            <? len (log (this (after_prefetch git w))) - 1); cbn.
  - eexists. split; [apply displayCommit_events | reflexivity].
  - exists []. split; reflexivity.
Qed.

(** ** The claims on the prefetch policy *)

(** C1. [showOlder] calls [prefetchMore] exactly when at most
    [fetchThreshold] loaded commits remain behind the current one,
    [fetchFailed] is false and [loadingMore] is false; in every other
    state it makes no call of [git.fetch]. *)
Theorem showOlder_prefetches_iff (w : World X) :
  let c := this w in
  let near := len (log c) - currentIndex c - 1 <= fetchThreshold c
              /\ fetchFailed c = false /\ loadingMore c = false in
  let es := events (showOlder git w) in
  (In (Enter MPrefetchMore) es <-> near)
  /\ (~ near -> forall a, ~ In (GitFetch a) es).
Proof.
  cbv zeta. fold (near_the_end (this w)).
  destruct (showOlder_events w) as (shown & Hshown & ->).
  rewrite <- near_the_end_test.
  destruct ((len (log (this w)) - currentIndex (this w) - 1
             <=? fetchThreshold (this w))
            && negb (fetchFailed (this w)) && negb (loadingMore (this w))).
  - split; [| intros H; now destruct H].
    split; [reflexivity | intros _].
    right. apply in_or_app. left. apply prefetchMore_enters.
  - split.
    + split; [| discriminate].
      cbn. intros [H|H]; [discriminate H |].
      now apply (display_event_not _ _ Hshown) in H.
    + intros _ a. cbn. intros [H|H]; [discriminate H |].
      now apply (display_event_not _ _ Hshown) in H.
Qed.

(** A call of [prefetchMore] that [showOlder] makes reaches [git.fetch]
    unless [isFetching] is set. *)
Lemma showOlder_fetches_iff (w : World X) :
  (exists a, In (GitFetch a) (events (showOlder git w)))
  <-> near_the_end (this w) /\ isFetching (this w) = false.
Proof.
  destruct (showOlder_events w) as (shown & Hshown & ->).
  rewrite <- near_the_end_test.
  destruct ((len (log (this w)) - currentIndex (this w) - 1
             <=? fetchThreshold (this w))
            && negb (fetchFailed (this w)) && negb (loadingMore (this w)))
    eqn:T.
  - apply near_the_end_test in T. destruct T as (_ & Tf & Tl).
    assert (B : busy (this w) = isFetching (this w))
      by (unfold busy; rewrite Tf, Tl; now destruct (isFetching (this w))).
    split.
    + intros [a [H|H]]; [discriminate H |].
      apply in_app_or in H. destruct H as [H|H].
      * split; [reflexivity |].
        destruct (isFetching (this w)); [| reflexivity].
        now apply prefetchMore_no_fetch_when_busy in H.
      * now apply (display_event_not _ _ Hshown) in H.
    + intros [_ F]. rewrite F in B.
      exists (prefetch_fetch_args w). right. apply in_or_app. left.
      destruct (prefetchMore_result w); try congruence; cbn; auto.
  - split; [| intros [H _]; discriminate H].
    intros [a [H|H]]; [discriminate H |].
    now apply (display_event_not _ _ Hshown) in H.
Qed.

Lemma after_prefetch_index (w : World X) :
  currentIndex (this (after_prefetch git w)) = currentIndex (this w).
Proof.
  unfold after_prefetch.
  destruct (_ && _); [apply prefetchMore_keeps | reflexivity].
Qed.


Lemma paging_index (w : World X) :
  let i := currentIndex (this w) in
  let older := this (final (showOlder git w)) in
  let newer := this (final (showNewer git w)) in
  let loaded := log (this (after_prefetch git w)) in
  log older = loaded
  /\ currentIndex older
     = match awaited_prefetch git w with
       | Throw _ => i
       | Ok _ => if i <? len loaded - 1 then i + 1 else i
       end
  /\ log newer = log (this w)
  /\ currentIndex newer = (if i >? 0 then i - 1 else i).
Proof.
  cbv zeta.
  pose proof (after_prefetch_index w) as K.
  rewrite showOlder_eq, showNewer_eq. cbv zeta. rewrite K.
  repeat split.
  - destruct (awaited_prefetch git w); [| reflexivity].
    destruct (_ <? _); cbn; [| reflexivity].
    now rewrite (proj1 (displayCommit_keeps _ _)).
  - destruct (awaited_prefetch git w); [| exact K].
    destruct (_ <? _); cbn; [| now rewrite K].
    destruct (displayCommit_keeps
                (world (set_currentIndex (currentIndex (this w) + 1)
                          (this (after_prefetch git w)))
                   (globalThis (after_prefetch git w))
                   (ext (after_prefetch git w)))
                (currentIndex (this w) + 1)) as (_ & _ & _ & _ & _ & _ & ->).
    cbn. now destruct (out_of_range _ _).
  - destruct (_ >? _); cbn; [| reflexivity].
    now rewrite (proj1 (displayCommit_keeps _ _)).
  - destruct (_ >? _); cbn; [| reflexivity].
    destruct (displayCommit_keeps
                (world (set_currentIndex (currentIndex (this w) - 1) (this w))
                   (globalThis w) (ext w))
                (currentIndex (this w) - 1)) as (_ & _ & _ & _ & _ & _ & ->).
    cbn. now destruct (out_of_range _ _).
Qed.


Lemma round_trip_from_nonneg_index (w : World X) :
  0 <= currentIndex (this w) ->
  currentIndex (this w) < len (log (this w)) - 1 ->
  len (log (this w)) - currentIndex (this w) - 1 > fetchThreshold (this w) ->
  let w' := final (showNewer git (final (showOlder git w))) in
  currentIndex (this w') = currentIndex (this w)
  /\ log (this w') = log (this w).
Proof.
  intros H0 H1 H2. cbv zeta.
  assert (A : after_prefetch git w = w).
  { unfold after_prefetch.
    destruct (Z.leb_spec (len (log (this w)) - currentIndex (this w) - 1)
                (fetchThreshold (this w))); [lia | reflexivity]. }
  assert (P : awaited_prefetch git w = Ok tt).
  { unfold awaited_prefetch. cbv zeta.
    destruct (Z.leb_spec (len (log (this w)) - currentIndex (this w) - 1)
                (fetchThreshold (this w))); [lia | reflexivity]. }
  destruct (paging_index w) as (L1 & I1 & _). rewrite A in L1, I1.
  rewrite P in I1.
  destruct (paging_index (final (showOlder git w))) as (_ & _ & L2 & I2).
  rewrite L2, I2, L1, I1.
  destruct (Z.ltb_spec (currentIndex (this w)) (len (log (this w)) - 1));
    [| lia].
  destruct (Z.gtb_spec (currentIndex (this w) + 1) 0); [| lia].
  split; [lia | reflexivity].
Qed.

(** The guard of [showNewer] does not undo a step taken from a negative
    index, which no state of a run has. *)
Lemma round_trip_lost_below_zero (w : World X) :
  currentIndex (this w) = -1 ->
  2 <= len (log (this w)) ->
  len (log (this w)) > fetchThreshold (this w) ->
  currentIndex (this (final (showNewer git (final (showOlder git w))))) = 0.
Proof.
  intros H0 H1 H2.
  assert (A : after_prefetch git w = w).
  { unfold after_prefetch.
    destruct (Z.leb_spec (len (log (this w)) - currentIndex (this w) - 1)
                (fetchThreshold (this w))); [lia | reflexivity]. }
  assert (P : awaited_prefetch git w = Ok tt).
  { unfold awaited_prefetch. cbv zeta.
    destruct (Z.leb_spec (len (log (this w)) - currentIndex (this w) - 1)
                (fetchThreshold (this w))); [lia | reflexivity]. }
  destruct (paging_index w) as (L1 & I1 & _). rewrite A in L1, I1.
  rewrite P in I1.
  destruct (paging_index (final (showOlder git w))) as (_ & _ & L2 & I2).
  rewrite I2, I1.
  destruct (Z.ltb_spec (currentIndex (this w)) (len (log (this w)) - 1));
    [| lia].
  destruct (Z.gtb_spec (currentIndex (this w) + 1) 0); lia.
Qed.

(** ** The claims on [prefetchMore] *)

(** C9. With one of [isFetching], [fetchFailed], [loadingMore] set,
    [prefetchMore] returns at once: no library call, the same state.
    Otherwise, however the fetch goes, [isFetching] and [loadingMore] are
    false when it is done. *)
Theorem prefetchMore_guard (w : World X) :
  let c := this w in
  let r := prefetchMore git w in
  if isFetching c || fetchFailed c || loadingMore c then
    outcome r = Ok tt /\ final r = w /\ library_calls (events r) = []
  else
    isFetching (this (final r)) = false
    /\ loadingMore (this (final r)) = false.
Proof.
  cbv zeta. fold (busy (this w)).
  destruct (prefetchMore_result w) as [B|? ? ? B|? ? ? ? ? B|? ? ? ? ? B];
    rewrite B; cbn; auto.
Qed.

(** C4, as amended. A [prefetchMore] that gets past its guard calls
    [git.fetch] and then [git.log] with the depth that JavaScript makes
    of [log.length + fetchStep]: for a number that is the sum, exactly
    [fetchStep] more commits, as long as it stays within [2^53] (and the
    nearest double beyond, an infinity for an infinite step); for a text,
    as [attributeChangedCallback] stores it, the two are concatenated. When both calls succeed the
    result of [git.log] is the new [log] and [fetchFailed] is false. *)
Theorem prefetchMore_asks_for_fetchStep_more (w : World X) :
  isFetching (this w) = false ->
  fetchFailed (this w) = false ->
  loadingMore (this w) = false ->
  let n := len (log (this w)) in
  let depth := js_add n (fetchStep (this w)) in
  let r := prefetchMore git w in
  let fa := prefetch_fetch_args w in
  let la := prefetch_log_args w in
  f_depth fa = depth
  /\ l_depth la = depth
  /\ (forall k, fetchStep (this w) = JNumber k ->
                depth = JNumber (round_double (n + k))
                /\ (Z.abs (n + k) <= 2 ^ 53 -> depth = JNumber (n + k)))
  /\ (forall negative, fetchStep (this w) = JInfinity negative ->
                        depth = JInfinity negative)
  /\ (forall s, fetchStep (this w) = JString s ->
                depth = JString (str n ++ s))
  /\ match git_fetch git fa (ext w) with
     | (Throw _, _) => library_calls (events r) = [GitFetch fa]
     | (Ok _, x1) =>
         library_calls (events r) = [GitFetch fa; GitLog la]
         /\ match git_log git la x1 with
            | (Ok l, _) =>
                log (this (final r)) = l
                /\ fetchFailed (this (final r)) = false
            | (Throw _, _) =>
                log (this (final r)) = log (this w)
                /\ fetchFailed (this (final r)) = true
            end
     end.
Proof.
  intros Hi Hf Hl. cbv zeta.
  assert (B : busy (this w) = false) by (unfold busy; now rewrite Hi, Hf, Hl).
  split; [reflexivity |]. split; [reflexivity |].
  split.
  { intros k ->. cbn. split; [reflexivity |].
    intros Hk. now rewrite round_double_exact. }
  split; [intros negative ->; reflexivity |].
  split; [intros s ->; reflexivity |].
  destruct (prefetchMore_result w) as [B'|? ? ? _ F|? ? ? ? ? _ F L|? ? ? ? ? _ F L];
    [congruence | rewrite F .. ]; cbn; try rewrite L; cbn; auto.
Qed.

(** *** Once [fetchFailed] is set *)

Lemma showOlder_after_failure (v : World X) :
  fetchFailed (this v) = true ->
  fetchFailed (this (final (showOlder git v))) = true
  /\ forall a, ~ In (GitFetch a) (events (showOlder git v)).
Proof.
  intros F. split.
  - rewrite showOlder_eq. unfold awaited_prefetch, after_prefetch. cbv zeta.
    rewrite F, andb_false_r. cbn.
    destruct (_ <? _); cbn; [| assumption].
    now rewrite (proj1 (proj2 (displayCommit_keeps _ _))).
  - destruct (showOlder_events v) as (shown & Hshown & ->).
    rewrite F, andb_false_r. cbn.
    intros a [H|H]; [discriminate H |].
    now apply (display_event_not _ _ Hshown) in H.
Qed.

Lemma run_op_after_failure (o : Op) (v : World X) :
  fetchFailed (this v) = true ->
  fetchFailed (this (final (run_op git o v))) = true
  /\ forall a, ~ In (GitFetch a) (events (run_op git o v)).
Proof.
  intros F. destruct o; cbn.
  - now apply showOlder_after_failure.
  - rewrite showNewer_eq. cbv zeta.
    destruct (_ >? _); cbn.
    + rewrite (proj1 (proj2 (displayCommit_keeps _ _))). split; [exact F |].
      intros a [H|H]; [discriminate H |].
      now apply (display_event_not _ _ (displayCommit_events _ _)) in H.
    + split; [exact F |]. intros a [H|[]]. discriminate H.
  - assert (B : busy (this v) = true)
      by (unfold busy; rewrite F; now destruct (isFetching (this v))).
    split; [| intros a; now apply prefetchMore_no_fetch_when_busy].
    destruct (prefetchMore_result v); try congruence. exact F.
  - rewrite (proj1 (proj2 (displayCommit_keeps _ _))). split; [exact F |].
    intros a H.
    now apply (display_event_not _ _ (displayCommit_events _ _)) in H.
Qed.

Lemma run_ops_after_failure (ops : list Op) (v : World X) :
  fetchFailed (this v) = true ->
  fetchFailed (this (fst (run_ops git ops v))) = true
  /\ forall a, ~ In (GitFetch a) (snd (run_ops git ops v)).
Proof.
  revert v. induction ops as [|o ops IH]; intros v F; cbn.
  - split; [exact F | intros a []].
  - destruct (run_op_after_failure o v F) as [F1 N1].
    destruct (IH _ F1) as [F2 N2].
    destruct (run_ops git ops (final (run_op git o v))) as [w' es]. cbn in *.
    split; [exact F2 |].
    intros a H. apply in_app_or in H. destruct H as [H|H];
      [now apply N1 in H | now apply N2 in H].
Qed.

(** C5. When the [git.fetch] of [prefetchMore] throws: [fetchFailed] is
    true afterwards, [log] is the same, the status line reads
    [Reached oldest commit]; and from any state with [fetchFailed] set,
    neither [showOlder] nor [prefetchMore] calls [git.fetch], and the
    paging operations leave the flag set. *)
Theorem failed_fetch_stops_prefetching (w : World X) (ex : exn) (x1 : X) :
  isFetching (this w) = false ->
  fetchFailed (this w) = false ->
  loadingMore (this w) = false ->
  git_fetch git (prefetch_fetch_args w) (ext w) = (Throw ex, x1) ->
  let w' := final (prefetchMore git w) in
  fetchFailed (this w') = true
  /\ log (this w') = log (this w)
  /\ status (dom (this w'))
     = option_map (fun _ => "Reached oldest commit") (status (dom (this w)))
  /\ (forall v : World X,
        fetchFailed (this v) = true ->
        forall a,
          ~ In (GitFetch a) (events (showOlder git v))
          /\ ~ In (GitFetch a) (events (prefetchMore git v)))
  /\ (forall ops : list Op,
        fetchFailed (this (fst (run_ops git ops w'))) = true
        /\ forall a, ~ In (GitFetch a) (snd (run_ops git ops w'))).
Proof.
  intros Hi Hf Hl F. cbv zeta.
  assert (B : busy (this w) = false) by (unfold busy; now rewrite Hi, Hf, Hl).
  assert (K : fetchFailed (this (final (prefetchMore git w))) = true
              /\ log (this (final (prefetchMore git w))) = log (this w)
              /\ status (dom (this (final (prefetchMore git w))))
                 = option_map (fun _ => "Reached oldest commit")
                     (status (dom (this w)))).
  { destruct (prefetchMore_result w) as [B'|? ? ? _ F' R|? ? ? ? ? _ F' _ R|? ? ? ? ? _ F' _ R];
      try congruence.
    cbn. destruct R as (R & _). auto. }
  destruct K as (K1 & K2 & K3).
  repeat split; try assumption.
  - now apply showOlder_after_failure.
  - apply (run_op_after_failure OpPrefetchMore v). assumption.
  - now apply run_ops_after_failure.
  - now apply run_ops_after_failure.
Qed.

(** ** The claims on the helpers *)

(** C2. When [git.clone] succeeds, [cloneOrFetchRepo] makes no call of
    [git.fetch]. When it throws, there is one call of [git.fetch], with
    the same [fs], [http], [dir], [url], [ref], [singleBranch: true] and
    [depth], and [cloneOrFetchRepo] completes normally exactly when that
    call does. *)
Theorem cloneOrFetchRepo_falls_back (a : RepoArgs) (w : World X) :
  let r := cloneOrFetchRepo git a w in
  let ca := {| c_fs := r_fs a; c_http := r_http a; c_dir := r_dir a;
               c_url := r_url a; c_ref := r_branch a;
               c_singleBranch := true; c_depth := r_depth a;
               c_corsProxy := "https://cors.isomorphic-git.org" |} in
  let fa := {| f_fs := r_fs a; f_http := r_http a; f_dir := r_dir a;
               f_url := r_url a; f_ref := r_branch a;
               f_singleBranch := true; f_depth := r_depth a;
               f_shallow := None;
               f_corsProxy := "https://cors.isomorphic-git.org" |} in
  match git_clone git ca (ext w) with
  | (Ok _, _) =>
      events r = [GitClone ca]
      /\ filter is_fetch (events r) = []
      /\ outcome r = Ok tt
  | (Throw _, x1) =>
      events r = [GitClone ca; GitFetch fa]
      /\ filter is_fetch (events r) = [GitFetch fa]
      /\ (outcome r = Ok tt <-> fst (git_fetch git fa x1) = Ok tt)
  end.
Proof.
  cbv zeta. unfold cloneOrFetchRepo, clone_args_of, fetch_args_of, corsProxyUrl.
  autounfold with js_unfold. cbn.
  destruct (git_clone git _ (ext w)) as [[[]|e] x1]; cbn; [auto |].
  destruct (git_fetch git _ x1) as [[[]|e'] x2]; cbn;
    repeat split; auto; discriminate.
Qed.

(** ** The claim on [displayCommit] *)

(** C6, as amended. For an index inside the list, [displayCommit] sets
    [currentIndex] to it and calls [git.checkout] on the commit, forced.
    If the checkout throws, so does [displayCommit], and the page keeps
    its content. If it succeeds, the content element gets the body of
    [index.html] cut after its first [hr] element, or the fallback markup
    when the file cannot be read, and [updateUI] is called:
    [displayCommit] completes normally when the page has its
    [#commitInfo] element and rejects with the [TypeError] of [updateUI]
    when it has not. *)
Theorem displayCommit_shows_commit (w : World X) (index : Z) :
  0 <= index < len (log (this w)) ->
  exists e,
    js_index (log (this w)) index = Some e
    /\ let r := displayCommit git index w in
       let co := {| o_fs := g_fs (globalThis w); o_dir := g_dir (globalThis w);
                    o_ref := oid e; o_force := Some true |} in
       currentIndex (this (final r)) = index
       /\ In (GitCheckout co) (events r)
       /\ match git_checkout git co (ext w) with
          | (Throw ex, _) =>
              outcome r = Throw ex
              /\ content (dom (this (final r))) = content (dom (this w))
          | (Ok _, x1) =>
              outcome r
              = match commitInfo (dom (this w)) with
                | Some _ => Ok tt
                | None => Throw no_commitInfo
                end
              /\ In (Enter MUpdateUI) (events r)
              /\ content (dom (this (final r)))
                 = match g_pfs (globalThis w) with
                   | None => "<em>No index.html found in commit</em>"
                   | Some pfs =>
                       match fst (pfs_readFile git pfs (index_path w) "utf8" x1)
                       with
                       | Ok file =>
                           innerHTML_of git (cut_after_hr (parse_body git file))
                       | Throw _ => "<em>No index.html found in commit</em>"
                       end
                   end
          end.
Proof.
  intros Hr. apply out_of_range_false in Hr.
  assert (P0 : forall e, js_index (log (this w)) index = Some e ->
               paint_outcome (set_currentIndex index (this w))
               = match commitInfo (dom (this w)) with
                 | Some _ => Ok tt
                 | None => Throw no_commitInfo
                 end)
    by (intros e He;
        exact (paint_outcome_at (set_currentIndex index (this w)) e He)).
  destruct (displayCommit_result w index)
    as [R|e ex x1 R He C|e u x1 d R He C P S|e u x1 pfs ex x2 d R He C P F S
        |e u x1 pfs file x2 d R He C P F S];
    [congruence | exists e; split; [exact He |] .. ];
    cbv zeta; fold (checkout_args w e); rewrite C; cbn;
    try rewrite P; try rewrite F; cbn;
    try rewrite (P0 e He);
    try destruct S as (S & _); auto 10.
Qed.

(** ** The claim on [initializeRepo] *)

Lemma initializeRepo_eq (w : World X) (m : Outcome unit) (x0 x1 x2 x3 : X)
    (pre : list Event) (u1 : unit) (commits : list LogEntry) :
  let c := this w in
  let g := repo_globals (globalThis w) in
  let fs := the_fs (globalThis w) in
  let ra := {| r_fs := Some fs; r_http := HttpWeb; r_dir := Some "/repo";
               r_url := repoUrl c; r_branch := branch c;
               r_depth := JNumber (initialDepth c) |} in
  let co := {| o_fs := Some fs; o_dir := Some "/repo";
               o_ref := "origin/" ++ branch c; o_force := None |} in
  let la := {| l_fs := Some fs; l_dir := Some "/repo";
               l_ref := "origin/" ++ branch c;
               l_depth := JNumber (initialDepth c) |} in
  pfs_mkdir git (the_pfs (globalThis w)) "/repo" (ext w) = (m, x0) ->
  cloneOrFetchRepo git ra (world (loading c) g x0)
  = {| outcome := Ok tt; final := world (loading c) g x1; events := pre |} ->
  git_checkout git co x1 = (Ok u1, x2) ->
  git_log git la x2 = (Ok commits, x3) ->
  initializeRepo git w
  = match contentAnimation (dom c) with
    | Some _ =>
        let r := displayCommit git 0 (world (loaded c commits) g x3) in
        {| outcome := outcome r; final := final r;
           events := Enter MInitializeRepo :: Mkdir "/repo"
                     :: pre ++ GitCheckout co :: GitLog la :: events r |}
    | None =>
        {| outcome := Throw no_content_style;
           final := world (listed c commits) g x3;
           events := Enter MInitializeRepo :: Mkdir "/repo"
                     :: pre ++ [GitCheckout co; GitLog la] |}
    end.
Proof.
  cbv zeta. unfold repo_globals, the_pfs, the_fs, loading, loaded, listed, world.
  destruct w as [c g x]. cbn. intros Hm Hc Ho Hl.
  unfold initializeRepo. autounfold with js_unfold. cbn.
  rewrite Hm. destruct m as [[]|em]; cbn.
  all: unfold set_dom in *; cbn in *; rewrite Hc; cbn.
  all: rewrite Ho; cbn; rewrite Hl; cbn.
  all: rewrite option_map_const.
  all: destruct (contentAnimation (dom c)); cbn; [| reflexivity].
  all: destruct (displayCommit git 0 _) as [o wf es]; cbn.
  all: reflexivity.
Qed.



(** ** The index and the list *)

Lemma run_op_index (o : Op) (v : World X) :
  let v' := final (run_op git o v) in
  currentIndex (this v') = currentIndex (this v)
  \/ 0 <= currentIndex (this v') <= len (log (this v')) - 1
  \/ (0 < currentIndex (this v)
      /\ currentIndex (this v') = currentIndex (this v) - 1)
  \/ (currentIndex (this v') = currentIndex (this v) + 1
      /\ currentIndex (this v') <= len (log (this v')) - 1).
Proof.
  cbv zeta. destruct o; cbn.
  - destruct (paging_index v) as (L & I & _). rewrite I, L.
    destruct (awaited_prefetch git v); [| now left].
    destruct (Z.ltb_spec (currentIndex (this v))
                (len (log (this (after_prefetch git v))) - 1));
      [right; right; right; lia | now left].
  - destruct (paging_index v) as (_ & _ & _ & I). rewrite I.
    destruct (Z.gtb_spec (currentIndex (this v)) 0);
      [right; right; left; lia | now left].
  - left. apply prefetchMore_keeps.
  - destruct (displayCommit_keeps v index) as (L & _ & _ & _ & _ & _ & I).
    cbv zeta in L, I. rewrite I, L.
    destruct (out_of_range (this v) index) eqn:R; [now left |].
    apply out_of_range_false in R. right; left; lia.
Qed.

Lemma run_ops_index_nonneg (ops : list Op) (v : World X) :
  0 <= currentIndex (this v) ->
  0 <= currentIndex (this (fst (run_ops git ops v))).
Proof.
  revert v. induction ops as [|o ops IH]; intros v H; cbn; [exact H |].
  specialize (IH (final (run_op git o v))).
  destruct (run_ops git ops (final (run_op git o v))) as [w' es]. cbn in *.
  apply IH. pose proof (run_op_index o v) as K. cbv zeta in K. lia.
Qed.

Lemma run_ops_index_within (ops : list Op) (v : World X) :
  log_never_shrinks git ops v ->
  index_within (this v) ->
  index_within (this (fst (run_ops git ops v))).
Proof.
  revert v. induction ops as [|o ops IH]; intros v G H; cbn; [exact H |].
  destruct G as [G1 G2].
  specialize (IH (final (run_op git o v)) G2).
  destruct (run_ops git ops (final (run_op git o v))) as [w' es]. cbn in *.
  apply IH. pose proof (run_op_index o v) as K. cbv zeta in K.
  unfold index_within, len in *. lia.
Qed.

(** C8, as amended. From a state with [currentIndex = 0], as the
    constructor leaves it, any sequence of [showOlder], [showNewer],
    [prefetchMore] and [displayCommit] keeps [0 <= currentIndex]; it keeps
    [currentIndex <= log.length - 1] for a non-empty list as long as no
    step replaces the list by a shorter one. [displayCommit] with an index
    outside the list returns at once and changes nothing. *)
Theorem index_invariant (ops : list Op) (w : World X) :
  currentIndex (this w) = 0 ->
  let w' := fst (run_ops git ops w) in
  0 <= currentIndex (this w')
  /\ (log_never_shrinks git ops w ->
      log (this w') <> [] ->
      currentIndex (this w') <= len (log (this w')) - 1)
  /\ (forall (v : World X) (index : Z),
        index < 0 \/ len (log (this v)) <= index ->
        displayCommit git index v
        = {| outcome := Ok tt; final := v;
             events := [Enter (MDisplayCommit index)] |}).
Proof.
  intros H0. cbv zeta. split; [| split].
  - apply run_ops_index_nonneg. lia.
  - intros G Hne.
    assert (W : index_within (this w))
      by (unfold index_within; lia).
    pose proof (run_ops_index_within ops w G W) as K.
    unfold index_within, len in *.
    destruct (log (this (fst (run_ops git ops w)))); [congruence |].
    cbn [List.length] in *. lia.
  - intros v index Hout. apply out_of_range_true in Hout.
    destruct (displayCommit_result v index); congruence.
Qed.

(** ** The states of a run *)

Lemma cloneOrFetchRepo_keeps (a : RepoArgs) (w : World X) :
  this (final (cloneOrFetchRepo git a w)) = this w
  /\ globalThis (final (cloneOrFetchRepo git a w)) = globalThis w.
Proof.
  unfold cloneOrFetchRepo. autounfold with js_unfold. cbn.
  destruct (git_clone git _ (ext w)) as [[[]|e] x1]; cbn; [auto |].
  destruct (git_fetch git _ x1) as [[[]|e'] x2]; cbn; auto.
Qed.

Lemma initializeRepo_index (w : World X) :
  currentIndex (this (final (initializeRepo git w))) = currentIndex (this w)
  \/ currentIndex (this (final (initializeRepo git w))) = 0.
Proof.
  unfold initializeRepo. autounfold with js_unfold.
  destruct w as [c g x]. cbn.
  destruct (pfs_mkdir git _ _ x) as [[[]|em] x0]; cbn.
  all: match goal with
       | |- context [cloneOrFetchRepo git ?a ?w0] =>
           destruct (cloneOrFetchRepo_keeps a w0) as [Kc Kg];
           destruct (cloneOrFetchRepo git a w0) as [[[]|ec] [c1 g1 x1] es1];
           cbn in Kc, Kg; subst c1 g1; cbn
       end; auto.
  all: destruct (git_checkout git _ x1) as [[[]|eo] x2]; cbn; auto.
  all: destruct (git_log git _ x2) as [[l|el] x3]; cbn; auto.
  all: destruct (contentAnimation (dom c)); cbn; auto.
  all: match goal with
       | |- context [displayCommit git 0 ?w3] =>
           destruct (displayCommit_keeps w3 0) as (_ & _ & _ & _ & _ & _ & K);
           cbv zeta in K;
           destruct (displayCommit git 0 w3) as [o3 wf es3];
           cbn in K |- *; rewrite K; destruct (0 >=? _); auto
       end.
Qed.

Lemma reachable_index_nonneg (w : World X) :
  reachable git w -> 0 <= currentIndex (this w).
Proof.
  induction 1 as [a d g x|w _ IH|o w _ IH].
  - cbn. lia.
  - destruct (initializeRepo_index w) as [K|K]; rewrite K; lia.
  - pose proof (run_op_index o w) as K. cbv zeta in K. lia.
Qed.

(** C10. In every state of a run where [showOlder] moves on without
    prefetching ([currentIndex < log.length - 1] and more than
    [fetchThreshold] commits left behind it), [showNewer] undoes it: the
    index is back and the commit list is the same. *)
Theorem older_then_newer (w : World X) :
  reachable git w ->
  currentIndex (this w) < len (log (this w)) - 1 ->
  len (log (this w)) - currentIndex (this w) - 1 > fetchThreshold (this w) ->
  let w' := final (showNewer git (final (showOlder git w))) in
  currentIndex (this w') = currentIndex (this w)
  /\ log (this w') = log (this w).
Proof.
  intros R. apply round_trip_from_nonneg_index.
  now apply reachable_index_nonneg.
Qed.

Local Transparent updateUI prefetchMore displayCommit showOlder showNewer.

End Facts.

(** ** Cutting the body at the first rule *)

Lemma Node_induction (P : Node -> Prop) :
  (forall s, P (Text s)) ->
  (forall t a cs, Forall P cs -> P (Elem t a cs)) ->
  forall n, P n.
Proof.
  intros HT HE. fix IH 1. intros [s|t a cs]; [apply HT | apply HE].
  induction cs as [|c cs IHcs]; constructor; [apply IH | exact IHcs].
Qed.

Lemma first_hr_none (find : Node -> option (list nat)) (l : list Node)
    (i : nat) :
  Forall (fun c => is_hr c = false /\ find c = None) l ->
  first_hr find l i = None.
Proof.
  intros H. revert i. induction H as [|c l [H1 H2] _ IH]; intros i; cbn.
  - reflexivity.
  - rewrite H1, H2. apply IH.
Qed.

Lemma first_hr_at (find : Node -> option (list nat))
    (before : list Node) (h : Node) (after : list Node) (i : nat) :
  Forall (fun c => is_hr c = false /\ find c = None) before ->
  is_hr h = true ->
  first_hr find (before ++ h :: after) i = Some [(i + List.length before)%nat].
Proof.
  intros H Hh. revert i. induction H as [|c l [H1 H2] _ IH]; intros i; cbn.
  - rewrite Hh. now rewrite Nat.add_0_r.
  - rewrite H1, H2, IH. now rewrite Nat.add_succ_r.
Qed.

Lemma has_hr_false (n : Node) :
  has_hr n = false -> is_hr n = false /\ querySelector_hr n = None.
Proof.
  induction n as [s|t a cs IH] using Node_induction; cbn; [auto |].
  intros H. apply orb_false_iff in H. destruct H as [Ht Hcs].
  split; [exact Ht |].
  apply first_hr_none.
  rewrite Forall_forall in *. intros c Hc. apply IH; [exact Hc |].
  destruct (has_hr c) eqn:E; [| reflexivity].
  assert (existsb has_hr cs = true) by (apply existsb_exists; eauto).
  congruence.
Qed.

Lemma no_hr_among (l : list Node) :
  existsb has_hr l = false ->
  Forall (fun c => is_hr c = false /\ querySelector_hr c = None) l.
Proof.
  intros H. apply Forall_forall. intros c Hc. apply has_hr_false.
  destruct (has_hr c) eqn:E; [| reflexivity].
  assert (existsb has_hr l = true) by (apply existsb_exists; eauto).
  congruence.
Qed.

(** X15. A body without an [hr] element is kept whole. *)
Lemma cut_after_hr_without_rule (body : list Node) :
  existsb has_hr body = false -> cut_after_hr body = body.
Proof.
  intros H. unfold cut_after_hr. cbn.
  now rewrite (first_hr_none _ _ _ (no_hr_among _ H)).
Qed.

(** X16. A body whose first [hr] element is a child of [body] keeps the
    children up to and including it. *)
Lemma cut_after_hr_at_top_level (before : list Node) (h : Node)
    (after : list Node) :
  existsb has_hr before = false ->
  is_hr h = true ->
  cut_after_hr (before ++ h :: after) = (before ++ [h])%list.
Proof.
  intros H Hh. unfold cut_after_hr. cbn.
  rewrite (first_hr_at _ _ _ _ _ (no_hr_among _ H) Hh). cbn.
  clear. induction before as [|b before IH]; cbn; [reflexivity |].
  now rewrite <- IH.
Qed.

(** Inside a nested element only the siblings of the rule go. *)
Example cut_after_hr_nested :
  cut_after_hr
    [ Elem "div" [] [Text "a"; Elem "hr" [] []; Text "b"]; Elem "p" [] [] ]
  = [ Elem "div" [] [Text "a"; Elem "hr" [] []]; Elem "p" [] [] ].
Proof. reflexivity. Qed.

(** * Runs on the simulated repository *)

(** A page that loaded three of the five commits. *)
Example started_state :
  let c := this (Sim.started 3 1 2) in
  (currentIndex c, List.length (log c), content (dom c), commitInfo (dom c))
  = (0, 3%nat, "news<hr>", Some "Commit 1/3: fifth").
Proof. vm_compute. reflexivity. Qed.

(** Paging to the end loads the rest of the history on the way. *)
Example paging_to_the_end :
  let w := fst (run_ops Sim.env (repeat OpShowOlder 6) (Sim.started 3 1 2)) in
  (currentIndex (this w), List.length (log (this w)), content (dom (this w)))
  = (4, 5%nat, "<em>No index.html found in commit</em>").
Proof. vm_compute. reflexivity. Qed.

Lemma older_then_newer_witness :
  let w := Sim.started 5 1 2 in
  currentIndex (this (final (showNewer Sim.env (final (showOlder Sim.env w)))))
  = currentIndex (this w)
  /\ log (this (final (showNewer Sim.env (final (showOlder Sim.env w)))))
     = log (this w).
Proof.
  apply (older_then_newer Sim.env (Sim.started 5 1 2)).
  - apply Reach_initializeRepo.
    apply (Reach_constructed Sim.env (Sim.attrs 5 1 2) Sim.page Sim.no_globals
             Sim.fresh).
  - vm_compute. reflexivity.
  - vm_compute. reflexivity.
Defined.

Lemma prefetchMore_asks_for_fetchStep_more_witness :
  let w := Sim.started 3 1 2 in
  library_calls (events (prefetchMore Sim.env w))
  = [GitFetch (prefetch_fetch_args w); GitLog (prefetch_log_args w)]
  /\ f_depth (prefetch_fetch_args w) = JNumber 5
  /\ List.length (log (this (final (prefetchMore Sim.env w)))) = 5%nat.
Proof.
  destruct (prefetchMore_asks_for_fetchStep_more Sim.env (Sim.started 3 1 2))
    as (_ & _ & _ & _ & _ & H); [vm_compute; reflexivity .. |].
  vm_compute in H. destruct H as (H1 & H2 & _).
  vm_compute. split; [reflexivity |]. split; reflexivity.
Defined.

(** C4 as stated fails beyond [2^53], where the sum is rounded: with
    three commits loaded and a step of [2^53] the depth is [2^53 + 4]. And
    with [fetch-step="0"], which [attributeChangedCallback] stores as the
    text it is, the depth is the text [30]. *)
Lemma depth_is_not_always_the_sum :
  ~ asks_for_the_sum Sim.env (Sim.started 3 1 (2 ^ 53))
  /\ (let w := with_fetchStep (JString "0") (Sim.started 3 1 2) in
      exists a,
        In (GitFetch a) (events (prefetchMore Sim.env w))
        /\ f_depth a = JString "30").
Proof.
  split.
  - intros H.
    assert (S : fetchStep (this (Sim.started 3 1 (2 ^ 53))) = JNumber (2 ^ 53))
      by (vm_compute; reflexivity).
    assert (I : In (GitFetch (prefetch_fetch_args (Sim.started 3 1 (2 ^ 53))))
                  (events (prefetchMore Sim.env (Sim.started 3 1 (2 ^ 53)))))
      by (vm_compute; right; left; reflexivity).
    pose proof (H _ _ S I) as K. vm_compute in K. discriminate K.
  - eexists. split; [vm_compute; right; left; reflexivity |].
    vm_compute. reflexivity.
Qed.

Lemma failed_fetch_stops_prefetching_witness :
  let w := Sim.unplug (Sim.started 3 1 2) in
  let w' := final (prefetchMore Sim.env w) in
  fetchFailed (this w') = true
  /\ log (this w') = log (this w)
  /\ status (dom (this w')) = Some "Reached oldest commit".
Proof.
  assert (F : git_fetch Sim.env
                (prefetch_fetch_args (Sim.unplug (Sim.started 3 1 2)))
                (ext (Sim.unplug (Sim.started 3 1 2)))
              = (Throw (LibError "fetch failed"),
                 ext (Sim.unplug (Sim.started 3 1 2))))
    by (vm_compute; reflexivity).
  assert (B : isFetching (this (Sim.unplug (Sim.started 3 1 2))) = false
              /\ fetchFailed (this (Sim.unplug (Sim.started 3 1 2))) = false
              /\ loadingMore (this (Sim.unplug (Sim.started 3 1 2))) = false)
    by (vm_compute; auto).
  destruct B as (B1 & B2 & B3).
  destruct (failed_fetch_stops_prefetching Sim.env _ _ _ B1 B2 B3 F)
    as (H1 & H2 & H3 & _).
  cbv zeta. split; [exact H1 |]. split; [exact H2 |].
  rewrite H3. vm_compute. reflexivity.
Defined.

Lemma displayCommit_shows_commit_witness :
  let w := Sim.started 3 1 2 in
  0 <= 1 < len (log (this w))
  /\ currentIndex (this (final (displayCommit Sim.env 1 w))) = 1
  /\ content (dom (this (final (displayCommit Sim.env 1 w)))) = "older news<hr>".
Proof.
  assert (R : 0 <= 1 < len (log (this (Sim.started 3 1 2))))
    by (vm_compute; split; [discriminate | reflexivity]).
  split; [exact R |].
  destruct (displayCommit_shows_commit Sim.env (Sim.started 3 1 2) 1 R)
    as (e & _ & H1 & _ & _).
  split; [exact H1 | vm_compute; reflexivity].
Defined.



Lemma index_invariant_witness :
  let ops := [OpShowOlder; OpShowOlder; OpShowNewer; OpDisplayCommit 7] in
  let w' := fst (run_ops Sim.env ops (Sim.started 3 1 2)) in
  0 <= currentIndex (this w') <= len (log (this w')) - 1.
Proof.
  destruct (index_invariant Sim.env
              [OpShowOlder; OpShowOlder; OpShowNewer; OpDisplayCommit 7]
              (Sim.started 3 1 2) eq_refl) as (H1 & H2 & _).
  split; [exact H1 |].
  apply H2.
  - vm_compute. repeat split; repeat constructor.
  - vm_compute. discriminate.
Defined.

(** C6 as stated fails: the newest commit has text after its rule, and
    the page does not show it. *)
Lemma displayCommit_drops_what_follows_the_rule :
  ~ renders_whole_body Sim.env (Sim.started 3 1 2) 0.
Proof.
  intros H.
  specialize (H (Sim.entry "c5" "fifth") tt
                (Sim.with_head (Some "c5") (ext (Sim.started 3 1 2)))
                (Promises (LightningFS "fs")) "news<hr>footer"
                (Sim.with_head (Some "c5") (ext (Sim.started 3 1 2)))
                eq_refl eq_refl eq_refl eq_refl).
  vm_compute in H. discriminate H.
Qed.

(** C8 as stated fails: with [fetch-step="-2"] the prefetch asks for depth
    [3 - 2], the list shrinks to one commit, and the index stays at 1. *)
Lemma shorter_log_breaks_index_bound :
  let w := final (showOlder Sim.env (Sim.started 3 1 (-2))) in
  index_in_log (this w)
  /\ ~ index_in_log (this (final (run_op Sim.env OpPrefetchMore w))).
Proof.
  split.
  - split; vm_compute; [discriminate | intros _; discriminate].
  - intros [_ H]. vm_compute in H. apply H; [discriminate | reflexivity].
Qed.
(** With one commit left behind the current one and a threshold of 1,
    [showOlder] prefetches; with two left it does not. *)
Lemma showOlder_prefetches_iff_witness :
  let w := final (showOlder Sim.env (Sim.started 3 1 2)) in
  In (Enter MPrefetchMore) (events (showOlder Sim.env w))
  /\ ~ In (Enter MPrefetchMore) (events (showOlder Sim.env (Sim.started 3 1 2))).
Proof.
  cbv zeta. split.
  - pose proof (showOlder_prefetches_iff Sim.env
                  (final (showOlder Sim.env (Sim.started 3 1 2)))) as H.
    cbv zeta in H. destruct H as [[_ H] _]. apply H.
    vm_compute. split; [discriminate | split; reflexivity].
  - pose proof (showOlder_prefetches_iff Sim.env (Sim.started 3 1 2)) as H.
    cbv zeta in H. destruct H as [[H _] _]. intros K. apply H in K.
    vm_compute in K. destruct K as [K _]. now apply K.
Defined.

Lemma cloneOrFetchRepo_falls_back_witness :
  let a := {| r_fs := Some (LightningFS "fs"); r_http := HttpWeb;
              r_dir := Some "/repo"; r_url := "https://example.org/repo";
              r_branch := "main"; r_depth := JNumber 3 |} in
  filter is_fetch (events (cloneOrFetchRepo Sim.env a (Sim.boot 3 1 2))) = []
  /\ List.length
       (filter is_fetch
          (events (cloneOrFetchRepo Sim.env a (Sim.started 3 1 2)))) = 1%nat.
Proof.
  cbv zeta. split.
  - pose proof (cloneOrFetchRepo_falls_back Sim.env
                  {| r_fs := Some (LightningFS "fs"); r_http := HttpWeb;
                     r_dir := Some "/repo"; r_url := "https://example.org/repo";
                     r_branch := "main"; r_depth := JNumber 3 |}
                  (Sim.boot 3 1 2)) as H.
    cbv zeta in H. vm_compute in H. vm_compute. apply H.
  - pose proof (cloneOrFetchRepo_falls_back Sim.env
                  {| r_fs := Some (LightningFS "fs"); r_http := HttpWeb;
                     r_dir := Some "/repo"; r_url := "https://example.org/repo";
                     r_branch := "main"; r_depth := JNumber 3 |}
                  (Sim.started 3 1 2)) as H.
    cbv zeta in H. vm_compute in H. vm_compute. reflexivity.
Defined.



Lemma prefetchMore_guard_witness :
  let w := Sim.started 3 1 2 in
  isFetching (this (final (prefetchMore Sim.env w))) = false
  /\ loadingMore (this (final (prefetchMore Sim.env w))) = false.
Proof.
  pose proof (prefetchMore_guard Sim.env (Sim.started 3 1 2)) as H.
  cbv zeta in H.
  replace (isFetching (this (Sim.started 3 1 2))
           || fetchFailed (this (Sim.started 3 1 2))
           || loadingMore (this (Sim.started 3 1 2))) with false in H
    by (vm_compute; reflexivity).
  exact H.
Defined.


(** * The page, the calls and the start *)

Section Page.
Context {X : Type}.
Variable git : Env X.

(** What [updateUI] does, field by field; nothing when it throws. *)
Lemma updateUI_paints (w : World X) :
  let c := this w in
  exists d,
    updateUI w
    = {| outcome := paint_outcome c;
         final := world (set_dom d c) (globalThis w) (ext w);
         events := [Enter MUpdateUI] |}
    /\ commitInfo d
       = match js_index (log c) (currentIndex c), commitInfo (dom c) with
         | Some e, Some _ => Some (caption c e)
         | _, _ => commitInfo (dom c)
         end
    /\ match lacks_commitInfo c, backBtn (dom c), nextBtn (dom c) with
       | false, Some b, Some n =>
           backBtn d = Some (back_button c)
           /\ nextBtn d = Some {| disabled := currentIndex c <=? 0;
                                  label := label n |}
       | _, _, _ => backBtn d = backBtn (dom c) /\ nextBtn d = nextBtn (dom c)
       end
    /\ content d = content (dom c)
    /\ status d = status (dom c)
    /\ contentAnimation d = contentAnimation (dom c).
Proof.
  cbv zeta. unfold caption, back_button, paint_outcome, lacks_commitInfo.
  open_world w. unfold updateUI. autounfold with js_unfold.
  break_all; eexists; (split; [reflexivity |]); cbn; auto 10.
Qed.

Lemma updateUI_in_sync (w : World X) :
  paint_outcome (this w) = Ok tt ->
  in_sync (this (final (updateUI w))).
Proof.
  intros Hok. pose proof (paint_outcome_ok _ Hok) as L.
  destruct (updateUI_paints w) as (d & -> & Hc & Hb & _). cbv zeta in *.
  rewrite L in Hb. unfold lacks_commitInfo in L.
  unfold in_sync. cbn. split.
  - intros e He. rewrite He in Hc, L.
    now destruct (commitInfo (dom (this w))).
  - intros b n Eb En.
    destruct (backBtn (dom (this w))) as [b0|], (nextBtn (dom (this w))) as [n0|];
      destruct Hb as [Hb Hn]; try congruence.
    rewrite Hb in Eb. rewrite Hn in En.
    injection Eb as <-. injection En as <-. split; reflexivity.
Qed.

Lemma updateUI_ok_in_sync (w : World X) :
  outcome (updateUI w) = Ok tt -> in_sync (this (final (updateUI w))).
Proof.
  intros H. apply updateUI_in_sync.
  destruct (updateUI_paints w) as (d & E & _). now rewrite E in H.
Qed.

Lemma updateUI_keeps_buttons (w : World X) :
  lacks_a_button (dom (this w)) = true ->
  backBtn (dom (this (final (updateUI w)))) = backBtn (dom (this w))
  /\ nextBtn (dom (this (final (updateUI w)))) = nextBtn (dom (this w)).
Proof.
  unfold lacks_a_button. intros L.
  destruct (updateUI_paints w) as (d & -> & _ & Hb & _). cbv zeta in *. cbn.
  destruct (lacks_commitInfo (this w)), (backBtn (dom (this w))),
    (nextBtn (dom (this w))); try discriminate; exact Hb.
Qed.

Local Opaque updateUI.

(** A [prefetchMore] that passes its guard ends with [updateUI], run on
    the state that the [finally] block has reset. *)
Lemma prefetchMore_ends_with_updateUI (w : World X) :
  busy (this w) = false ->
  exists v,
    final (prefetchMore git w) = final (updateUI v)
    /\ backBtn (dom (this v)) = backBtn (dom (this w))
    /\ nextBtn (dom (this v)) = nextBtn (dom (this w))
    /\ commitInfo (dom (this v)) = commitInfo (dom (this w))
    /\ outcome (prefetchMore git w) = outcome (updateUI v).
Proof.
  unfold busy. open_world w. intros B.
  unfold prefetchMore. autounfold with js_unfold. cbn. rewrite B. cbn.
  destruct (git_fetch git _ x) as [[[]|e1] x1]; cbn;
    [destruct (git_log git _ x1) as [[l|e2] x2]; cbn |].
  all: match goal with
       | |- context [updateUI ?v] =>
           exists v; destruct (updateUI v) as [[[]|eu] wf es]; cbn; auto
       end.
Qed.

(** So does a [displayCommit] on an index inside the list, unless the
    checkout throws. *)
Lemma displayCommit_ends_with_updateUI (w : World X) (index : Z) :
  out_of_range (this w) index = false ->
  (exists ex x1,
      displayCommit git index w
      = {| outcome := Throw ex;
           final := world (set_currentIndex index (this w)) (globalThis w) x1;
           events := events (displayCommit git index w) |})
  \/ (exists v,
        final (displayCommit git index w) = final (updateUI v)
        /\ outcome (displayCommit git index w) = outcome (updateUI v)
        /\ backBtn (dom (this v)) = backBtn (dom (this w))
        /\ nextBtn (dom (this v)) = nextBtn (dom (this w))
        /\ commitInfo (dom (this v)) = commitInfo (dom (this w))
        /\ currentIndex (this v) = index
        /\ log (this v) = log (this w)
        /\ fetchFailed (this v) = fetchFailed (this w)
        /\ loadingMore (this v) = loadingMore (this w)).
Proof.
  intros R. destruct (js_index_in_range (log (this w)) index) as [e He];
    [now apply out_of_range_false |].
  revert R He. unfold out_of_range. open_world w. intros R He.
  unfold displayCommit. autounfold with js_unfold. cbn.
  rewrite R, He. cbn.
  destruct (git_checkout git _ x) as [[[]|ex] x1]; cbn;
    [right | left; eauto].
  destruct (g_pfs g) as [pfs|]; cbn;
    [destruct (pfs_readFile git pfs _ _ x1) as [[file|e2] x2]; cbn |].
  all: match goal with
       | |- context [updateUI ?v] =>
           exists v; destruct (updateUI v) as [ou wf es]; cbn; auto 12
       end.
Qed.


Local Opaque prefetchMore displayCommit showOlder showNewer.

(** X1. The page after a [displayCommit] that went through. *)
Theorem displayCommit_repaints (w : World X) (index : Z) (e : LogEntry) :
  0 <= index < len (log (this w)) ->
  js_index (log (this w)) index = Some e ->
  outcome (displayCommit git index w) = Ok tt ->
  let c := this w in
  let d' := dom (this (final (displayCommit git index w))) in
  commitInfo d'
  = Some ("Commit " ++ str (index + 1) ++ "/" ++ str (len (log c)) ++ ": "
          ++ first_line (trim (message (commit e))))
  /\ (forall b n,
        backBtn (dom c) = Some b ->
        nextBtn (dom c) = Some n ->
        backBtn d'
        = Some {| disabled := (index >=? len (log c) - 1)
                              && (fetchFailed c || negb (loadingMore c));
                  label := if loadingMore c then "⬅ Loading older..."
                           else "⬅ Back (Older)" |}
        /\ nextBtn d' = Some {| disabled := index <=? 0; label := label n |}).
Proof.
  intros Hr He Hok. cbv zeta. apply out_of_range_false in Hr.
  destruct (displayCommit_ends_with_updateUI w index Hr)
    as [(ex & x1 & E)|(v & -> & Vo & Vb & Vn & Vc & Vi & Vl & Vf & Vm)];
    [rewrite E in Hok; discriminate Hok |].
  rewrite Hok in Vo. symmetry in Vo.
  destruct (updateUI_paints v) as (d & U & Hc & Hb & _). cbv zeta in *.
  rewrite U in Vo |- *. cbn in Vo |- *.
  pose proof (paint_outcome_ok _ Vo) as L.
  rewrite L in Hb. unfold lacks_commitInfo in L.
  rewrite Vi, Vl, He in Hc, L. split.
  - rewrite Hc. destruct (commitInfo (dom (this v))); [| discriminate L].
    unfold caption. now rewrite Vi, Vl.
  - intros b n Eb En. rewrite Vb, Eb, Vn, En in Hb.
    unfold back_button in Hb. now rewrite Vi, Vl, Vf, Vm in Hb.
Qed.


(** *** A principle for the four operations *)

(** What [prefetchMore], [displayCommit] and an assignment to
    [currentIndex] keep, every operation keeps. *)
Lemma run_op_preserves (P : World X -> Prop) :
  (forall v, P v -> P (final (prefetchMore git v))) ->
  (forall v i, P v -> P (final (displayCommit git i v))) ->
  (forall v i,
      P v -> P (world (set_currentIndex i (this v)) (globalThis v) (ext v))) ->
  forall o w, P w -> P (final (run_op git o w)).
Proof.
  intros Hp Hd Hi o w Hw. destruct o; cbn.
  - rewrite showOlder_eq. cbv zeta.
    assert (H1 : P (after_prefetch git w)).
    { unfold after_prefetch. destruct (_ && _); auto. }
    destruct (awaited_prefetch git w); [| cbn; auto].
    destruct (_ <? _); cbn; auto.
  - rewrite showNewer_eq. cbv zeta. destruct (_ >? _); cbn; auto.
  - auto.
  - auto.
Qed.

(** X2. A page that lacks one of the two buttons: no operation touches
    the other one. *)
Theorem missing_button_freezes_the_other (o : Op) (w : World X) :
  backBtn (dom (this w)) = None \/ nextBtn (dom (this w)) = None ->
  backBtn (dom (this (final (run_op git o w)))) = backBtn (dom (this w))
  /\ nextBtn (dom (this (final (run_op git o w)))) = nextBtn (dom (this w)).
Proof.
  intros L.
  assert (L' : lacks_a_button (dom (this w)) = true).
  { unfold lacks_a_button. destruct L as [-> | ->]; [reflexivity |].
    now destruct (backBtn (dom (this w))). }
  clear L.
  apply (run_op_preserves
           (fun v => backBtn (dom (this v)) = backBtn (dom (this w))
                     /\ nextBtn (dom (this v)) = nextBtn (dom (this w)))).
  - intros v [Hb Hn].
    assert (Lv : lacks_a_button (dom (this v)) = true)
      by (unfold lacks_a_button in *; now rewrite Hb, Hn).
    destruct (busy (this v)) eqn:B.
    + destruct (prefetchMore_result git v); try congruence. auto.
    + destruct (prefetchMore_ends_with_updateUI v B) as (u & -> & Ub & Un & _).
      assert (Lu : lacks_a_button (dom (this u)) = true)
        by (unfold lacks_a_button in *; now rewrite Ub, Un).
      destruct (updateUI_keeps_buttons u Lu) as [-> ->]. split; congruence.
  - intros v i [Hb Hn].
    assert (Lv : lacks_a_button (dom (this v)) = true)
      by (unfold lacks_a_button in *; now rewrite Hb, Hn).
    destruct (out_of_range (this v) i) eqn:R.
    { destruct (displayCommit_result git v i); try congruence. auto. }
    destruct (displayCommit_ends_with_updateUI v i R)
      as [(ex & x1 & ->)|(u & -> & _ & Ub & Un & _)]; [cbn; auto |].
    assert (Lu : lacks_a_button (dom (this u)) = true)
      by (unfold lacks_a_button in *; now rewrite Ub, Un).
    destruct (updateUI_keeps_buttons u Lu) as [-> ->]. split; congruence.
  - intros v i H. exact H.
  - auto.
Qed.

(** X3. Repainting twice is repainting once. *)
Theorem updateUI_idempotent (w : World X) :
  final (updateUI (final (updateUI w))) = final (updateUI w).
Proof.
  destruct (updateUI_paints w) as (d1 & E1 & C1 & B1 & T1 & S1 & A1).
  rewrite E1. cbn [final].
  destruct (updateUI_paints (world (set_dom d1 (this w)) (globalThis w) (ext w)))
    as (d2 & E2 & C2 & B2 & T2 & S2 & A2).
  rewrite E2. cbn [final]. cbv zeta in *.
  unfold lacks_commitInfo, caption, back_button in *.
  destruct w as [c g x]. destruct c. cbn in *.
  assert (D : d2 = d1).
  { destruct d1 as [b1 n1 c1 s1 t1 a1], d2 as [b2 n2 c2 s2 t2 a2]. cbn in *.
    subst t1 s1 a1 t2 s2 a2.
    destruct (js_index log0 currentIndex0), (commitInfo dom0),
      (backBtn dom0), (nextBtn dom0); cbn in *;
      destruct B1 as [? ?]; subst b1 n1 c1; cbn in *;
      destruct B2 as [? ?]; subst b2 n2 c2; reflexivity. }
  rewrite D. reflexivity.
Qed.


(** X4. The page follows the state. With the index inside the list (0
    for an empty one), the caption the one of the current commit and the
    buttons enabled as the index demands, an operation that completes
    normally and does not shorten the list leaves all of this true. *)
Theorem page_stays_in_sync (o : Op) (w : World X) :
  index_within (this w) ->
  in_sync (this w) ->
  outcome (run_op git o w) = Ok tt ->
  (List.length (log (this w))
   <= List.length (log (this (final (run_op git o w)))))%nat ->
  index_within (this (final (run_op git o w)))
  /\ in_sync (this (final (run_op git o w))).
Proof.
  intros W S O G. split.
  { pose proof (run_op_index git o w) as K. cbv zeta in K.
    unfold index_within, len in *. lia. }
  clear G. revert O.
  assert (Hp : forall v, in_sync (this v) ->
                 outcome (prefetchMore git v) = Ok tt ->
                 in_sync (this (final (prefetchMore git v)))).
  { intros v Sv Ov. destruct (busy (this v)) eqn:B.
    - destruct (prefetchMore_result git v); try congruence. exact Sv.
    - destruct (prefetchMore_ends_with_updateUI v B)
        as (u & -> & _ & _ & _ & Uo).
      apply updateUI_ok_in_sync. congruence. }
  assert (Hd : forall v i,
             out_of_range (this v) i = false ->
             outcome (displayCommit git i v) = Ok tt ->
             in_sync (this (final (displayCommit git i v)))).
  { intros v i R Ov.
    destruct (displayCommit_ends_with_updateUI v i R)
      as [(ex & x1 & E)|(u & -> & Uo & _)];
      [rewrite E in Ov; discriminate Ov |].
    apply updateUI_ok_in_sync. congruence. }
  destruct o; cbn.
  - rewrite showOlder_eq. cbv zeta.
    pose proof (after_prefetch_index git w) as K.
    destruct (awaited_prefetch git w) as [[]|ex] eqn:A; [| discriminate].
    assert (S1 : in_sync (this (after_prefetch git w))).
    { revert A. unfold awaited_prefetch, after_prefetch. cbv zeta.
      destruct (_ && _); auto. }
    destruct (Z.ltb_spec (currentIndex (this (after_prefetch git w)))
                (len (log (this (after_prefetch git w))) - 1)); cbn; [| auto].
    intros O. apply Hd; [| exact O].
    apply out_of_range_false. cbn. unfold index_within in W. lia.
  - rewrite showNewer_eq. cbv zeta.
    destruct (Z.gtb_spec (currentIndex (this w)) 0); cbn; [| auto].
    intros O. apply Hd; [| exact O].
    apply out_of_range_false. cbn. unfold index_within in W. lia.
  - auto.
  - intros O. destruct (out_of_range (this w) index) eqn:R; [| auto].
    destruct (displayCommit_result git w index); try congruence. exact S.
Qed.

(** X5. A checkout that throws stops [displayCommit] after it has moved
    the index: nothing is read, nothing is repainted. The same through
    [showNewer]. *)
Theorem failed_checkout_leaves_the_page (w : World X) (index : Z)
    (e : LogEntry) (ex : exn) (x1 : X) :
  0 <= index < len (log (this w)) ->
  js_index (log (this w)) index = Some e ->
  git_checkout git (checkout_args w e) (ext w) = (Throw ex, x1) ->
  displayCommit git index w
  = {| outcome := Throw ex;
       final := world (set_currentIndex index (this w)) (globalThis w) x1;
       events := [Enter (MDisplayCommit index);
                  GitCheckout (checkout_args w e)] |}
  /\ (index = currentIndex (this w) - 1 ->
      showNewer git w
      = {| outcome := Throw ex;
           final := world (set_currentIndex index (this w)) (globalThis w) x1;
           events := [Enter MShowNewer; Enter (MDisplayCommit index);
                      GitCheckout (checkout_args w e)] |}).
Proof.
  intros Hr He Hc.
  assert (D : forall v,
             log (this v) = log (this w) -> globalThis v = globalThis w ->
             ext v = ext w ->
             displayCommit git index v
             = {| outcome := Throw ex;
                  final := world (set_currentIndex index (this v))
                             (globalThis v) x1;
                  events := [Enter (MDisplayCommit index);
                             GitCheckout (checkout_args w e)] |}).
  { intros v Vl Vg Vx.
    assert (Ca : checkout_args v = checkout_args w)
      by (unfold checkout_args; now rewrite Vg).
    destruct (displayCommit_result git v index)
      as [R|e' ex' x' R He' C|e' u x' d R He' C|e' u x' pfs ex' x2 d R He' C
          |e' u x' pfs file x2 d R He' C].
    - apply out_of_range_true in R. rewrite Vl in R. lia.
    - rewrite Vl, He in He'. injection He' as <-.
      rewrite Ca, Vx, Hc in C. injection C as <- <-. now rewrite Ca.
    - rewrite Vl, He in He'. injection He' as <-.
      rewrite Ca, Vx, Hc in C. discriminate C.
    - rewrite Vl, He in He'. injection He' as <-.
      rewrite Ca, Vx, Hc in C. discriminate C.
    - rewrite Vl, He in He'. injection He' as <-.
      rewrite Ca, Vx, Hc in C. discriminate C. }
  split; [now apply D |].
  intros Hi. rewrite showNewer_eq. cbv zeta.
  destruct (Z.gtb_spec (currentIndex (this w)) 0); [| lia].
  rewrite <- Hi.
  rewrite (D (world (set_currentIndex index (this w)) (globalThis w) (ext w)))
    by reflexivity.
  cbn. destruct w as [c g x]. destruct c. reflexivity.
Qed.


(** *** The calls of one operation *)

Lemma count_calls_app (p : Event -> bool) (l1 l2 : list Event) :
  count_calls p (l1 ++ l2) = (count_calls p l1 + count_calls p l2)%nat.
Proof. unfold count_calls. now rewrite filter_app, length_app. Qed.

Lemma prefetchMore_calls (w : World X) :
  (count_calls is_fetch (events (prefetchMore git w)) <= 1)%nat
  /\ (count_calls is_log (events (prefetchMore git w)) <= 1)%nat
  /\ count_calls is_checkout (events (prefetchMore git w)) = 0%nat
  /\ count_calls is_read (events (prefetchMore git w)) = 0%nat
  /\ count_calls is_clone (events (prefetchMore git w)) = 0%nat.
Proof.
  destruct (prefetchMore_result git w); cbn; repeat split; auto.
Qed.

Lemma displayCommit_calls (w : World X) (index : Z) :
  count_calls is_fetch (events (displayCommit git index w)) = 0%nat
  /\ count_calls is_log (events (displayCommit git index w)) = 0%nat
  /\ (count_calls is_checkout (events (displayCommit git index w)) <= 1)%nat
  /\ (count_calls is_read (events (displayCommit git index w)) <= 1)%nat
  /\ count_calls is_clone (events (displayCommit git index w)) = 0%nat.
Proof.
  destruct (displayCommit_result git w index); cbn; repeat split; auto.
Qed.

(** X6. One operation makes at most one call of [git.fetch], of
    [git.log], of [git.checkout] and of [readFile], and none of
    [git.clone]; [showNewer] and [displayCommit] never fetch and never
    list commits. *)
Theorem one_call_of_each_per_operation (o : Op) (w : World X) :
  let es := events (run_op git o w) in
  (count_calls is_fetch es <= 1)%nat
  /\ (count_calls is_log es <= 1)%nat
  /\ (count_calls is_checkout es <= 1)%nat
  /\ (count_calls is_read es <= 1)%nat
  /\ count_calls is_clone es = 0%nat
  /\ (match o with
      | OpShowNewer | OpDisplayCommit _ =>
          count_calls is_fetch es = 0%nat /\ count_calls is_log es = 0%nat
      | _ => True
      end).
Proof.
  cbv zeta. destruct o; cbn [run_op].
  - rewrite showOlder_eq. cbv zeta.
    match goal with
    | |- context [if ?t then events (prefetchMore git w) else []] =>
        set (pre := if t then events (prefetchMore git w) else [])
    end.
    assert (P : (count_calls is_fetch pre <= 1)%nat
                /\ (count_calls is_log pre <= 1)%nat
                /\ count_calls is_checkout pre = 0%nat
                /\ count_calls is_read pre = 0%nat
                /\ count_calls is_clone pre = 0%nat).
    { subst pre. destruct (_ && _); [apply prefetchMore_calls | cbn; auto]. }
    clearbody pre.
    destruct P as (P1 & P2 & P3 & P4 & P5).
    destruct (awaited_prefetch git w); cycle 1.
    { cbn [events].
      change (Enter MShowOlder :: pre) with ([Enter MShowOlder] ++ pre)%list.
      rewrite !count_calls_app. cbn [count_calls filter is_fetch is_log
        is_checkout is_read is_clone List.length].
      repeat split; try lia. }
    destruct (_ <? _); cbn [events].
    + match goal with
      | |- context [displayCommit git ?i ?v] =>
          destruct (displayCommit_calls v i) as (D1 & D2 & D3 & D4 & D5)
      end.
      change (Enter MShowOlder :: ?a ++ ?b)
        with ([Enter MShowOlder] ++ a ++ b)%list.
      rewrite !count_calls_app. cbn [count_calls filter is_fetch is_log
        is_checkout is_read is_clone List.length].
      repeat split; try lia.
    + change (Enter MShowOlder :: ?a ++ [])
        with ([Enter MShowOlder] ++ a ++ [])%list.
      rewrite !count_calls_app. cbn [count_calls filter is_fetch is_log
        is_checkout is_read is_clone List.length].
      repeat split; try lia.
  - rewrite showNewer_eq. cbv zeta.
    destruct (_ >? _); cbn [events].
    + match goal with
      | |- context [displayCommit git ?i ?v] =>
          destruct (displayCommit_calls v i) as (D1 & D2 & D3 & D4 & D5)
      end.
      change (Enter MShowNewer :: ?a) with ([Enter MShowNewer] ++ a)%list.
      rewrite !count_calls_app. cbn [count_calls filter is_fetch is_log
        is_checkout is_read is_clone List.length].
      repeat split; try lia.
    + cbn. repeat split; auto.
  - destruct (prefetchMore_calls w) as (P1 & P2 & P3 & P4 & P5).
    repeat split; try lia.
  - destruct (displayCommit_calls w index) as (D1 & D2 & D3 & D4 & D5).
    repeat split; try lia.
Qed.


Lemma displayCommit_checkout (w : World X) (index : Z) (a : CheckoutArgs) :
  In (GitCheckout a) (events (displayCommit git index w)) ->
  let c' := this (final (displayCommit git index w)) in
  o_force a = Some true
  /\ exists e,
       js_index (log c') (currentIndex c') = Some e /\ o_ref a = oid e.
Proof.
  cbv zeta.
  destruct (displayCommit_result git w index)
    as [R|e ex x1 R He C|e u x1 d R He C|e u x1 pfs ex x2 d R He C
        |e u x1 pfs file x2 d R He C]; cbn; intros Hin.
  - destruct Hin as [Hin|[]]. discriminate Hin.
  - destruct Hin as [Hin|[Hin|[]]]; [discriminate Hin |]. injection Hin as <-.
    split; [reflexivity |]. exists e. auto.
  - destruct Hin as [Hin|[Hin|[Hin|[]]]]; try discriminate Hin.
    injection Hin as <-. split; [reflexivity |]. exists e. auto.
  - destruct Hin as [Hin|[Hin|[Hin|[Hin|[]]]]]; try discriminate Hin.
    injection Hin as <-. split; [reflexivity |]. exists e. auto.
  - destruct Hin as [Hin|[Hin|[Hin|[Hin|[]]]]]; try discriminate Hin.
    injection Hin as <-. split; [reflexivity |]. exists e. auto.
Qed.

Lemma prefetchMore_no_checkout (w : World X) (a : CheckoutArgs) :
  ~ In (GitCheckout a) (events (prefetchMore git w)).
Proof.
  destruct (prefetchMore_result git w); cbn; intuition discriminate.
Qed.

(** X7. Whenever an operation checks a commit out, it is forced, and the
    commit is the one at [currentIndex] when the operation is done. *)
Theorem checkout_is_the_current_commit (o : Op) (w : World X)
    (a : CheckoutArgs) :
  In (GitCheckout a) (events (run_op git o w)) ->
  let c' := this (final (run_op git o w)) in
  o_force a = Some true
  /\ exists e,
       js_index (log c') (currentIndex c') = Some e /\ o_ref a = oid e.
Proof.
  cbv zeta. destruct o; cbn [run_op].
  - rewrite showOlder_eq. cbv zeta.
    destruct (awaited_prefetch git w); cycle 1.
    { cbn [events final]. intros [H|H]; [discriminate H |].
      destruct (_ && _); [now apply prefetchMore_no_checkout in H | destruct H]. }
    destruct (_ <? _); cbn [events final]; intros [H|H]; try discriminate H;
      apply in_app_or in H; destruct H as [H|H].
    + destruct (_ && _); [now apply prefetchMore_no_checkout in H | destruct H].
    + now apply displayCommit_checkout.
    + destruct (_ && _); [now apply prefetchMore_no_checkout in H | destruct H].
    + destruct H.
  - rewrite showNewer_eq. cbv zeta.
    destruct (_ >? _); cbn [events final]; intros [H|H]; try discriminate H.
    + now apply displayCommit_checkout.
    + destruct H.
  - intros H. now apply prefetchMore_no_checkout in H.
  - apply displayCommit_checkout.
Qed.

(** X8. At the ends of the list paging does nothing: [showNewer] at index
    0, and [showOlder] at the last commit once fetching has failed. *)
Theorem paging_stops_at_the_ends (w : World X) :
  (currentIndex (this w) <= 0 ->
   showNewer git w
   = {| outcome := Ok tt; final := w; events := [Enter MShowNewer] |})
  /\ (fetchFailed (this w) = true ->
      len (log (this w)) - 1 <= currentIndex (this w) ->
      showOlder git w
      = {| outcome := Ok tt; final := w; events := [Enter MShowOlder] |}).
Proof.
  split.
  - intros H. rewrite showNewer_eq. cbv zeta.
    destruct (Z.gtb_spec (currentIndex (this w)) 0); [lia | reflexivity].
  - intros F H. rewrite showOlder_eq.
    unfold awaited_prefetch, after_prefetch. cbv zeta.
    rewrite F, andb_false_r. cbn.
    destruct (Z.ltb_spec (currentIndex (this w)) (len (log (this w)) - 1));
      [lia | reflexivity].
Qed.

(** X9. No operation changes the configuration or the globals. *)
Theorem operations_keep_the_configuration (o : Op) (w : World X) :
  let w' := final (run_op git o w) in
  globalThis w' = globalThis w
  /\ branch (this w') = branch (this w)
  /\ repoUrl (this w') = repoUrl (this w)
  /\ fetchStep (this w') = fetchStep (this w)
  /\ fetchThreshold (this w') = fetchThreshold (this w)
  /\ initialDepth (this w') = initialDepth (this w).
Proof.
  cbv zeta.
  apply (run_op_preserves
           (fun v => globalThis v = globalThis w
                     /\ branch (this v) = branch (this w)
                     /\ repoUrl (this v) = repoUrl (this w)
                     /\ fetchStep (this v) = fetchStep (this w)
                     /\ fetchThreshold (this v) = fetchThreshold (this w)
                     /\ initialDepth (this v) = initialDepth (this w))).
  - intros v H. destruct (prefetchMore_result git v); cbn; exact H.
  - intros v i H. destruct (displayCommit_result git v i); cbn; exact H.
  - intros v i H. exact H.
  - repeat split.
Qed.

Lemma run_op_flags (o : Op) (w : World X) :
  isFetching (this w) = false ->
  loadingMore (this w) = false ->
  isFetching (this (final (run_op git o w))) = false
  /\ loadingMore (this (final (run_op git o w))) = false.
Proof.
  intros Hi Hl.
  apply (run_op_preserves
           (fun v => isFetching (this v) = false
                     /\ loadingMore (this v) = false)).
  - intros v H. destruct (prefetchMore_result git v); cbn; auto.
  - intros v i H. destruct (displayCommit_result git v i); cbn; exact H.
  - intros v i H. exact H.
  - auto.
Qed.

(** X10. Between operations nothing is in flight: from a state with
    [isFetching] and [loadingMore] false, every sequence of operations
    ends with both false; so in a run the guard of [prefetchMore] is
    decided by [fetchFailed] alone. *)
Theorem flags_are_clear_between_operations (ops : list Op) (w : World X) :
  isFetching (this w) = false ->
  loadingMore (this w) = false ->
  let w' := fst (run_ops git ops w) in
  isFetching (this w') = false
  /\ loadingMore (this w') = false
  /\ busy (this w') = fetchFailed (this w').
Proof.
  cbv zeta. revert w. induction ops as [|o ops IH]; intros w Hi Hl.
  - cbn. unfold busy. rewrite Hi, Hl. cbn. now rewrite orb_false_r.
  - cbn [run_ops]. destruct (run_op_flags o w Hi Hl) as [Hi' Hl'].
    specialize (IH (final (run_op git o w)) Hi' Hl').
    destruct (run_ops git ops (final (run_op git o w))) as [w' es].
    exact IH.
Qed.


(** *** Start-up *)

(** X11. [initializeRepo] keeps a file system that is already in
    [globalThis] and creates one otherwise, sets [dir] to [/repo], and
    does so whatever fails later; a second run finds the same globals. *)
Theorem initializeRepo_shares_the_file_system (w : World X) :
  let g := globalThis w in
  let g' := globalThis (final (initializeRepo git w)) in
  let fs := match g_fs g with Some f => f | None => LightningFS "fs" end in
  g_fs g' = Some fs
  /\ g_pfs g' = Some (match g_pfs g with Some p => p | None => Promises fs end)
  /\ g_dir g' = Some "/repo"
  /\ globalThis (final (initializeRepo git (final (initializeRepo git w)))) = g'.
Proof.
  cbv zeta.
  assert (G : forall v, globalThis (final (initializeRepo git v))
                        = repo_globals (globalThis v)).
  { intros v. unfold initializeRepo, cloneOrFetchRepo, repo_globals, the_pfs,
      the_fs.
    autounfold with js_unfold.
    destruct v as [c g x]. cbn.
    destruct (pfs_mkdir git _ _ x) as [[[]|em] x0]; cbn.
    all: destruct (git_clone git _ x0) as [[[]|ec] x1]; cbn.
    all: try (destruct (git_fetch git _ x1) as [[[]|ef] x1']; cbn).
    all: try reflexivity.
    all: match goal with
         | |- context [git_checkout git ?a ?y] =>
             destruct (git_checkout git a y) as [[[]|eo] x2]; cbn
         end.
    all: try reflexivity.
    all: match goal with
         | |- context [git_log git ?a ?y] =>
             destruct (git_log git a y) as [[l|el] x3]; cbn
         end.
    all: try reflexivity.
    all: destruct (contentAnimation (dom c)); cbn.
    all: try reflexivity.
    all: match goal with
         | |- context [displayCommit git 0 ?v] =>
             destruct (displayCommit_result git v 0); reflexivity
         end. }
  rewrite !G. unfold repo_globals, the_pfs, the_fs. cbn.
  repeat split; reflexivity.
Qed.

(** X12. Off line: when [git.clone] and the [git.fetch] that stands in
    for it both throw, [initializeRepo] rejects with the error of the
    fetch after these three calls; the status line stays at
    [Loading N commits...] and nothing else has changed. *)
Theorem initializeRepo_rejects_when_both_fail (w : World X)
    (m : Outcome unit) (x0 x1 x2 : X) (e1 e2 : exn) :
  let c := this w in
  let fs := the_fs (globalThis w) in
  let ra := {| r_fs := Some fs; r_http := HttpWeb; r_dir := Some "/repo";
               r_url := repoUrl c; r_branch := branch c;
               r_depth := JNumber (initialDepth c) |} in
  pfs_mkdir git (the_pfs (globalThis w)) "/repo" (ext w) = (m, x0) ->
  git_clone git (clone_args_of ra) x0 = (Throw e1, x1) ->
  git_fetch git (fetch_args_of ra) x1 = (Throw e2, x2) ->
  let r := initializeRepo git w in
  outcome r = Throw e2
  /\ events r = [Enter MInitializeRepo; Mkdir "/repo";
                 GitClone (clone_args_of ra); GitFetch (fetch_args_of ra)]
  /\ status (dom (this (final r)))
     = option_map
         (fun _ => "Loading " ++ str (initialDepth c) ++ " commits...")
         (status (dom c))
  /\ log (this (final r)) = log c
  /\ currentIndex (this (final r)) = currentIndex c
  /\ content (dom (this (final r))) = content (dom c)
  /\ ext (final r) = x2.
Proof.
  cbv zeta. unfold the_pfs, the_fs, clone_args_of, fetch_args_of.
  destruct w as [c g x]. cbn. intros Hm Hc Hf.
  unfold initializeRepo, cloneOrFetchRepo, clone_args_of, fetch_args_of.
  autounfold with js_unfold. cbn.
  rewrite Hm. destruct m as [[]|em]; cbn; rewrite Hc; cbn; rewrite Hf; cbn;
    repeat split; reflexivity.
Qed.

(** X13. The three ways [initializeRepo] can go. It gets to
    [displayCommit(0)]. Or something fails before the commit list is in
    place (clone and fetch, the checkout of [origin/<branch>],
    [git.log]): it rejects, and the component is as it was but for the
    status line. Or the list is in place and the element of class
    [news-browser__content] cannot be reached through [this.shadowRoot]:
    it rejects with that [TypeError], with the new list and an empty
    status line, and nothing on display has changed. *)
Theorem initializeRepo_ends_in_three_ways (w : World X) :
  let r := initializeRepo git w in
  In (Enter (MDisplayCommit 0)) (events r)
  \/ (exists ex, outcome r = Throw ex /\ this (final r) = loading (this w))
  \/ (exists commits,
        outcome r = Throw no_content_style
        /\ contentAnimation (dom (this w)) = None
        /\ this (final r) = listed (this w) commits).
Proof.
  cbv zeta. unfold initializeRepo, cloneOrFetchRepo, loading, listed.
  autounfold with js_unfold.
  destruct w as [c g x]. cbn.
  destruct (pfs_mkdir git _ _ x) as [[[]|em] x0]; cbn.
  all: destruct (git_clone git _ x0) as [[[]|ec] x1]; cbn.
  all: try (destruct (git_fetch git _ x1) as [[[]|ef] x1']; cbn).
  all: try (right; left; eexists; split; reflexivity).
  all: match goal with
       | |- context [git_checkout git ?a ?y] =>
           destruct (git_checkout git a y) as [[[]|eo] x2]; cbn
       end.
  all: try (right; left; eexists; split; reflexivity).
  all: match goal with
       | |- context [git_log git ?a ?y] =>
           destruct (git_log git a y) as [[l|el] x3]; cbn
       end.
  all: try (right; left; eexists; split; reflexivity).
  all: destruct (contentAnimation (dom c)) eqn:A; cbn.
  all: try (right; right; exists l; unfold set_dom; cbn;
            rewrite option_map_const; repeat split; reflexivity).
  all: left.
  all: match goal with
       | |- context [displayCommit git 0 ?v] =>
           assert (K : In (Enter (MDisplayCommit 0))
                         (events (displayCommit git 0 v)))
             by (destruct (displayCommit_result git v 0); cbn; auto);
           destruct (displayCommit git 0 v) as [o3 wf es3]; cbn in K |- *
       end.
  all: repeat (first [ left; reflexivity | right ]); try assumption.
  all: apply in_or_app; right; cbn; auto.
Qed.

(** X14. An empty history: when [git.log] returns no commit,
    [initializeRepo] ends with an empty [log]; [displayCommit(0)], where
    it is reached, returns at once: no commit is checked out, and the
    content element and the caption keep what they had. *)
Theorem initializeRepo_with_no_commit (w : World X) (m : Outcome unit)
    (x0 x1 x2 x3 : X) (pre : list Event) (u1 : unit) :
  let c := this w in
  let g := repo_globals (globalThis w) in
  let fs := the_fs (globalThis w) in
  let ra := {| r_fs := Some fs; r_http := HttpWeb; r_dir := Some "/repo";
               r_url := repoUrl c; r_branch := branch c;
               r_depth := JNumber (initialDepth c) |} in
  let co := {| o_fs := Some fs; o_dir := Some "/repo";
               o_ref := "origin/" ++ branch c; o_force := None |} in
  let la := {| l_fs := Some fs; l_dir := Some "/repo";
               l_ref := "origin/" ++ branch c;
               l_depth := JNumber (initialDepth c) |} in
  pfs_mkdir git (the_pfs (globalThis w)) "/repo" (ext w) = (m, x0) ->
  cloneOrFetchRepo git ra (world (loading c) g x0)
  = {| outcome := Ok tt; final := world (loading c) g x1; events := pre |} ->
  git_checkout git co x1 = (Ok u1, x2) ->
  git_log git la x2 = (Ok [], x3) ->
  let r := initializeRepo git w in
  outcome r
  = match contentAnimation (dom c) with
    | Some _ => Ok tt
    | None => Throw no_content_style
    end
  /\ log (this (final r)) = []
  /\ currentIndex (this (final r)) = currentIndex c
  /\ content (dom (this (final r))) = content (dom c)
  /\ commitInfo (dom (this (final r))) = commitInfo (dom c)
  /\ status (dom (this (final r))) = option_map (fun _ => "") (status (dom c))
  /\ events r
     = Enter MInitializeRepo :: Mkdir "/repo"
       :: pre ++ GitCheckout co :: GitLog la
          :: match contentAnimation (dom c) with
             | Some _ => [Enter (MDisplayCommit 0)]
             | None => []
             end.
Proof.
  cbv zeta. intros Hm Hc Ho Hl.
  rewrite (initializeRepo_eq git w m x0 x1 x2 x3 pre u1 [] Hm Hc Ho Hl).
  cbv zeta.
  destruct (contentAnimation (dom (this w)));
    [| cbn; repeat split; reflexivity].
  destruct (displayCommit_result git
              (world (loaded (this w) []) (repo_globals (globalThis w)) x3) 0)
    as [R|e ? ? R|e ? ? ? R|e ? ? ? ? ? ? R|e ? ? ? ? ? ? R];
    try discriminate R.
  cbn. repeat split; reflexivity.
Qed.

Local Transparent updateUI prefetchMore displayCommit showOlder showNewer.

End Page.

(** ** More on the cut *)

Lemma update_nth_middle {A} (f : A -> A) (before : list A) (h : A)
    (after : list A) :
  update_nth (List.length before) f (before ++ h :: after)
  = (before ++ f h :: after)%list.
Proof.
  induction before as [|b before IH]; cbn; [reflexivity |]. now rewrite IH.
Qed.

Lemma first_hr_inside (find : Node -> option (list nat))
    (before : list Node) (h : Node) (after : list Node) (i : nat)
    (p : list nat) :
  Forall (fun c => is_hr c = false /\ find c = None) before ->
  is_hr h = false ->
  find h = Some p ->
  first_hr find (before ++ h :: after) i
  = Some ((i + List.length before)%nat :: p).
Proof.
  intros H Hh Hp. revert i. induction H as [|c l [H1 H2] _ IH]; intros i; cbn.
  - rewrite Hh, Hp. now rewrite Nat.add_0_r.
  - rewrite H1, H2, IH. now rewrite Nat.add_succ_r.
Qed.

Lemma first_hr_some (find : Node -> option (list nat)) (l : list Node)
    (i : nat) :
  (exists c, In c l /\ (is_hr c = true \/ find c <> None)) ->
  first_hr find l i <> None.
Proof.
  revert i. induction l as [|c l IH]; intros i [c0 [Hin H]]; cbn.
  - destruct Hin.
  - destruct (is_hr c) eqn:Ec; [discriminate |].
    destruct (find c) eqn:Fc; [discriminate |].
    apply IH. exists c0. destruct Hin as [<-|Hin]; [| auto].
    destruct H as [H|H]; congruence.
Qed.

Lemma querySelector_hr_finds (n : Node) :
  has_hr n = true -> is_hr n = false -> querySelector_hr n <> None.
Proof.
  induction n as [s|t a cs IH] using Node_induction; cbn; [discriminate |].
  intros H Ht. rewrite Ht in H. cbn in H.
  apply existsb_exists in H. destruct H as [c [Hin Hc]].
  apply first_hr_some. exists c. split; [exact Hin |].
  rewrite Forall_forall in IH.
  destruct (is_hr c) eqn:Ec; [now left | right]. now apply IH.
Qed.

Lemma querySelector_hr_path (n : Node) (p : list nat) :
  querySelector_hr n = Some p -> p <> [].
Proof.
  destruct n as [s|t a cs]; cbn; [discriminate |].
  generalize 0%nat. induction cs as [|c cs IH]; intros i; cbn; [discriminate |].
  destruct (is_hr c); [intros [= <-]; discriminate |].
  destruct (querySelector_hr c); [intros [= <-]; discriminate |].
  apply IH.
Qed.

(** X17. When the first [hr] sits inside a child [h] of [body], only [h] is
    cut: the children of [body] that follow [h] stay. *)
Lemma cut_after_hr_nested_rule (before : list Node) (h : Node)
    (after : list Node) :
  existsb has_hr before = false ->
  has_hr h = true ->
  is_hr h = false ->
  exists p,
    querySelector_hr h = Some p
    /\ cut_after_hr (before ++ h :: after)
       = (before ++ removeNextSiblings p h :: after)%list.
Proof.
  intros Hb Hh Ht.
  destruct (querySelector_hr h) as [p|] eqn:Q;
    [| now apply querySelector_hr_finds in Hh].
  exists p. split; [reflexivity |].
  unfold cut_after_hr. cbn.
  rewrite (first_hr_inside _ _ _ _ _ p (no_hr_among _ Hb) Ht Q). cbn.
  pose proof (querySelector_hr_path h p Q) as Np.
  destruct p as [|j p]; [congruence |]. cbn.
  apply update_nth_middle.
Qed.

Lemma first_hr_split (find : Node -> option (list nat)) (l : list Node)
    (i : nat) (q : list nat) :
  first_hr find l i = Some q ->
  exists before h after,
    l = (before ++ h :: after)%list
    /\ Forall (fun c => is_hr c = false /\ find c = None) before
    /\ (is_hr h = true /\ q = [(i + List.length before)%nat]
        \/ is_hr h = false
           /\ exists p, find h = Some p
                        /\ q = ((i + List.length before)%nat :: p)).
Proof.
  revert i. induction l as [|c l IH]; intros i; cbn; [discriminate |].
  destruct (is_hr c) eqn:Ec.
  - intros [= <-]. exists [], c, l. cbn. rewrite Nat.add_0_r. auto.
  - destruct (find c) as [p|] eqn:Fc.
    + intros [= <-]. exists [], c, l. cbn. rewrite Nat.add_0_r.
      split; [reflexivity |]. split; [constructor |]. right. eauto.
    + intros H. destruct (IH _ H) as (before & h & after & -> & Hb & Hq).
      exists (c :: before), h, after. cbn.
      rewrite Nat.add_succ_r. cbn in Hq.
      split; [reflexivity |]. split; [constructor; auto |]. exact Hq.
Qed.

Lemma firstn_middle {A} (before : list A) (h : A) (after : list A) :
  firstn (S (List.length before)) (before ++ h :: after) = (before ++ [h])%list.
Proof.
  induction before as [|b before IH]; cbn; [reflexivity |].
  cbn in IH. now rewrite IH.
Qed.

Lemma removeNextSiblings_is_hr (p : list nat) (n : Node) :
  is_hr (removeNextSiblings p n) = is_hr n.
Proof.
  destruct n as [s|t a cs]; destruct p as [|i [|j p]]; reflexivity.
Qed.

Lemma removeNextSiblings_at (i : nat) (t : string)
    (a : list (string * string)) (cs : list Node) :
  removeNextSiblings [i] (Elem t a cs) = Elem t a (firstn (S i) cs).
Proof. reflexivity. Qed.

Lemma removeNextSiblings_below (i j : nat) (p : list nat) (t : string)
    (a : list (string * string)) (cs : list Node) :
  removeNextSiblings (i :: j :: p) (Elem t a cs)
  = Elem t a (update_nth i (removeNextSiblings (j :: p)) cs).
Proof. reflexivity. Qed.

Lemma removeNextSiblings_stable (n : Node) (q : list nat) :
  querySelector_hr n = Some q ->
  querySelector_hr (removeNextSiblings q n) = Some q
  /\ removeNextSiblings q (removeNextSiblings q n) = removeNextSiblings q n.
Proof.
  revert q. induction n as [s|t a cs IH] using Node_induction; intros q;
    [discriminate |].
  cbn [querySelector_hr]. intros H.
  destruct (first_hr_split _ _ _ _ H)
    as (before & h & after & -> & Hb & [[Hh ->]|[Hh (p & Hp & ->)]]).
  - cbn [Nat.add]. rewrite removeNextSiblings_at, firstn_middle.
    cbn [querySelector_hr]. split.
    + now rewrite (first_hr_at _ _ _ [] 0 Hb Hh).
    + rewrite removeNextSiblings_at.
      replace (before ++ [h])%list with (before ++ h :: [])%list by reflexivity.
      now rewrite firstn_middle.
  - pose proof (querySelector_hr_path h p Hp) as Np.
    destruct p as [|j p]; [congruence |].
    cbn [Nat.add]. rewrite removeNextSiblings_below, update_nth_middle.
    cbn [querySelector_hr].
    rewrite Forall_forall in IH.
    destruct (IH h (in_elt h before after) _ Hp) as [Q1 Q2].
    split.
    + rewrite (first_hr_inside _ _ _ _ 0 (j :: p) Hb);
        [reflexivity | now rewrite removeNextSiblings_is_hr | exact Q1].
    + rewrite removeNextSiblings_below, update_nth_middle. now rewrite Q2.
Qed.

(** X18. Cutting what is already cut changes nothing. *)
Lemma cut_after_hr_idempotent (body : list Node) :
  cut_after_hr (cut_after_hr body) = cut_after_hr body.
Proof.
  unfold cut_after_hr at 2 3.
  destruct (querySelector_hr (Elem "body" [] body)) as [q|] eqn:Q.
  - destruct (removeNextSiblings_stable _ _ Q) as [Q1 Q2].
    assert (E : removeNextSiblings q (Elem "body" [] body)
                = Elem "body" []
                    (childNodes (removeNextSiblings q (Elem "body" [] body)))).
    { destruct q as [|i [|j q]]; reflexivity. }
    unfold cut_after_hr. rewrite <- E, Q1, Q2. reflexivity.
  - unfold cut_after_hr. now rewrite Q.
Qed.

(** The cut only removes: at top level the result is no longer than the
    body. *)
Lemma cut_after_hr_length (body : list Node) :
  (List.length (cut_after_hr body) <= List.length body)%nat.
Proof.
  unfold cut_after_hr.
  destruct (querySelector_hr (Elem "body" [] body)) as [q|] eqn:Q; [| lia].
  cbn [querySelector_hr] in Q.
  destruct (first_hr_split _ _ _ _ Q)
    as (before & h & after & -> & Hb & [[Hh ->]|[Hh (p & Hp & ->)]]).
  - cbn [Nat.add]. rewrite removeNextSiblings_at, firstn_middle.
    cbn [childNodes]. rewrite !length_app. cbn. lia.
  - pose proof (querySelector_hr_path h p Hp) as Np.
    destruct p as [|j p]; [congruence |].
    cbn [Nat.add]. rewrite removeNextSiblings_below, update_nth_middle.
    cbn [childNodes]. rewrite !length_app. cbn. lia.
Qed.

(** ** Attribute names and values *)

Lemma upper_not_lower (c : ascii) :
  is_lower c = true -> is_lower (upper c) = false /\ is_hyphen (upper c) = false.
Proof.
  unfold is_lower, is_hyphen, upper. intros H.
  apply andb_true_iff in H. destruct H as [H1 H2].
  apply Nat.leb_le in H1. apply Nat.leb_le in H2.
  rewrite nat_ascii_embedding by lia.
  split.
  - apply andb_false_iff. left. apply Nat.leb_gt. lia.
  - apply Nat.eqb_neq. lia.
Qed.

Lemma propName_of_camel_aux (n : nat) :
  forall s, (String.length s <= n)%nat ->
            has_hyphen_lower (propName_of s) = false
            /\ (head_is_lower s = false ->
                head_is_lower (propName_of s) = false).
Proof.
  induction n as [|n IH]; intros s Hn.
  - destruct s; [cbn; auto | cbn in Hn; lia].
  - destruct s as [|a [|c r]]; [cbn; auto | cbn; auto |].
    change (propName_of (String a (String c r)))
      with (if is_hyphen a && is_lower c
            then String (upper c) (propName_of r)
            else String a (propName_of (String c r))).
    destruct (is_hyphen a && is_lower c) eqn:E.
    + apply andb_true_iff in E. destruct E as [Ea Ec].
      destruct (upper_not_lower c Ec) as [U1 U2].
      destruct (IH r) as [I1 I2]; [cbn in *; lia |].
      split; [| intros _; exact U1].
      remember (propName_of r) as q eqn:P.
      destruct q as [|c' r']; [reflexivity |].
      change (has_hyphen_lower (String (upper c) (String c' r')))
        with ((is_hyphen (upper c) && is_lower c')
              || has_hyphen_lower (String c' r')).
      rewrite U2. exact I1.
    + destruct (IH (String c r)) as [I1 I2]; [cbn in *; lia |].
      split; [| intros H; exact H].
      remember (propName_of (String c r)) as q eqn:P.
      destruct q as [|c' r']; [reflexivity |].
      change (has_hyphen_lower (String a (String c' r')))
        with ((is_hyphen a && is_lower c')
              || has_hyphen_lower (String c' r')).
      rewrite I1, orb_false_r.
      apply andb_false_iff in E. destruct E as [E|E];
        [now rewrite E |].
      cbn in I2. rewrite (I2 E). apply andb_false_r.
Qed.

Lemma propName_of_plain (s : string) :
  has_hyphen s = false -> propName_of s = s.
Proof.
  induction s as [|a s IH]; cbn; [reflexivity |].
  intros H. apply orb_false_iff in H. destruct H as [Ha Hs].
  rewrite Ha. cbn. destruct s; [reflexivity |]. now rewrite IH.
Qed.

(** X21. The property name of an attribute: every hyphen before a
    lower-case letter is gone (the letter is upper case), a name without
    hyphen is kept, and the observed attributes land on the properties
    that the constructor sets. *)
Theorem propName_of_is_camel_case (name : string) :
  has_hyphen_lower (propName_of name) = false
  /\ (has_hyphen name = false -> propName_of name = name)
  /\ map propName_of observedAttributes
     = ["repoUrl"; "branch"; "initialDepth"; "fetchThreshold"; "fetchStep"].
Proof.
  split; [apply (propName_of_camel_aux (String.length name)); lia |].
  split; [apply propName_of_plain | reflexivity].
Qed.

Lemma same_attribute_value_spec (a b : option string) :
  same_attribute_value a b = true <-> a = b.
Proof.
  destruct a as [s|], b as [t|]; cbn; try (split; congruence).
  rewrite String.eqb_eq. split; congruence.
Qed.

(** X22. [attributeChangedCallback] assigns nothing when the value is the
    same. Otherwise it stores the parsed number when that is not 0, which
    is what the constructor stores too; for text that parses to 0 or to
    [NaN] it stores the text itself (or [null] for a removed attribute),
    where the constructor takes its default: the number 0 is never
    stored. *)
Theorem attribute_reflection (name : string) (oldValue newValue : option string)
    (parsed : option Z) :
  match attributeChangedCallback name oldValue newValue parsed with
  | None => oldValue = newValue
  | Some (p, v) =>
      oldValue <> newValue
      /\ p = propName_of name
      /\ v <> JNumber 0
      /\ (forall n d, parsed = Some n -> n <> 0 ->
                      v = JNumber n /\ int_or parsed d = n)
      /\ (parsed = None \/ parsed = Some 0 ->
          v = attribute_value newValue
          /\ forall d, int_or parsed d = d)
  end.
Proof.
  unfold attributeChangedCallback.
  destruct (same_attribute_value oldValue newValue) eqn:E.
  - now apply same_attribute_value_spec.
  - assert (N : oldValue <> newValue).
    { intros H. apply same_attribute_value_spec in H. congruence. }
    split; [exact N |]. split; [reflexivity |].
    destruct parsed as [[|n|n]|]; cbn.
    + split; [destruct newValue; discriminate |].
      split; [intros n d [= <-]; congruence | auto].
    + split; [discriminate |].
      split; [intros m d [= <-] _; auto | intros [H|H]; discriminate H].
    + split; [discriminate |].
      split; [intros m d [= <-] _; auto | intros [H|H]; discriminate H].
    + split; [destruct newValue; discriminate |].
      split; [intros n d H; discriminate H | auto].
Qed.

(** ** Construction *)

(** X20. The constructor treats 0 and the empty string like a missing
    attribute: no configuration has a step, a threshold or an initial
    depth of 0, or an empty branch or URL. Other values are taken as
    they are. *)
Theorem constructor_never_stores_zero (a : Attributes) (d : Dom) :
  let c := constructor a d in
  fetchStep c <> JNumber 0 /\ fetchThreshold c <> 0 /\ initialDepth c <> 0
  /\ branch c <> "" /\ repoUrl c <> ""
  /\ (forall n, int_fetch_step a = Some n -> n <> 0 ->
                fetchStep c = JNumber n)
  /\ (forall n, int_fetch_threshold a = Some n -> n <> 0 ->
                fetchThreshold c = n)
  /\ (forall n, int_initial_depth a = Some n -> n <> 0 -> initialDepth c = n)
  /\ (forall s, attr_branch a = Some s -> s <> "" -> branch c = s)
  /\ (forall s, attr_repo_url a = Some s -> s <> "" -> repoUrl c = s).
Proof.
  cbv zeta. unfold constructor. cbn.
  assert (I : forall o z, z <> 0 -> int_or o z <> 0)
    by (intros [[|p|p]|] z Hz; cbn; congruence).
  assert (S : forall o z, z <> "" -> str_or o z <> "")
    by (intros [[|c s]|] z Hz; cbn; congruence).
  assert (I' : forall o z n, o = Some n -> n <> 0 -> int_or o z = n)
    by (intros o z [|p|p] -> Hn; cbn; congruence).
  assert (S' : forall o z s, o = Some s -> s <> "" -> str_or o z = s)
    by (intros o z [|c s] -> Hs; cbn; congruence).
  repeat split; eauto; try (apply I; discriminate);
    try (apply S; discriminate).
  - intros [= H]. revert H. apply I. discriminate.
  - intros n Hn Hz. f_equal. eauto.
Qed.

(** ** The caption *)

Lemma first_line_prefix (s : string) : String.prefix (first_line s) s = true.
Proof.
  induction s as [|a s IH]; cbn; [reflexivity |].
  destruct (nat_of_ascii a =? 10)%nat; cbn; [reflexivity |].
  destruct (ascii_dec a a); [exact IH | congruence].
Qed.

Lemma first_line_no_line_feed (s : string) (a : ascii) :
  In a (list_ascii_of_string (first_line s)) -> nat_of_ascii a <> 10%nat.
Proof.
  induction s as [|b s IH]; cbn; [intros [] |].
  destruct (nat_of_ascii b =? 10)%nat eqn:E; cbn; [intros [] |].
  intros [<- | H]; [now apply Nat.eqb_neq | auto].
Qed.

Lemma trimStart_starts (n : nat) :
  forall s, (String.length s <= n)%nat ->
            starts_with_space (trimStart s) = false.
Proof.
  induction n as [|n IH]; intros s Hn.
  - destruct s; [reflexivity | cbn in Hn; lia].
  - destruct s as [|a r]; [reflexivity |]. cbn [trimStart].
    destruct (is_space a) eqn:E1; [apply IH; cbn in Hn; lia |].
    destruct r as [|b r2]; [cbn; exact E1 |].
    destruct (is_space2 a b) eqn:E2; [apply IH; cbn in Hn; lia |].
    destruct r2 as [|c r3]; [cbn; now rewrite E1, E2 |].
    destruct (is_space3 a b c) eqn:E3; [apply IH; cbn in Hn; lia |].
    cbn. now rewrite E1, E2, E3.
Qed.

Lemma trimEnd_prefix (s : string) : String.prefix (trimEnd s) s = true.
Proof.
  induction s as [|a s IH]; [reflexivity |].
  cbn [trimEnd]. destruct (all_space (String a s)); [reflexivity |].
  cbn. destruct (ascii_dec a a); [exact IH | congruence].
Qed.

(** What a string begins with, the strings it is a prefix of begin
    with. *)
Lemma starts_with_space_prefix (t u : string) :
  String.prefix t u = true ->
  starts_with_space t = true -> starts_with_space u = true.
Proof.
  destruct t as [|a [|b [|c t]]], u as [|a' [|b' [|c' u]]];
    cbn [starts_with_space String.prefix];
    try discriminate; try (intros _; discriminate).
  all: repeat match goal with
         | |- context [ascii_dec ?x ?y] =>
             destruct (ascii_dec x y); [subst | discriminate]
         end.
  all: try discriminate.
  all: repeat match goal with
         | |- context [is_space3 ?x ?y ?z] =>
             let q := fresh "q" in generalize (is_space3 x y z); intros q
         | |- context [is_space2 ?x ?y] =>
             let q := fresh "q" in generalize (is_space2 x y); intros q
         | |- context [is_space ?x] =>
             let q := fresh "q" in generalize (is_space x); intros q
         end.
  all: intros _.
  all: repeat match goal with q : bool |- _ => destruct q end.
  all: cbn; congruence.
Qed.

(** X19. The summary in the caption is the first line of the trimmed
    commit message: a prefix of it, without a line feed, that does not
    begin with white space, that of Unicode included. *)
Theorem caption_summary_is_one_line (m : string) :
  let s := first_line (trim m) in
  String.prefix s (trim m) = true
  /\ (forall a, In a (list_ascii_of_string s) -> nat_of_ascii a <> 10%nat)
  /\ starts_with_space s = false
  /\ starts_with_space (trim m) = false.
Proof.
  cbv zeta. split; [apply first_line_prefix |].
  split; [intros a; apply first_line_no_line_feed |].
  assert (T : starts_with_space (trim m) = false).
  { destruct (starts_with_space (trim m)) eqn:E; [| reflexivity].
    apply (starts_with_space_prefix _ (trimStart m)) in E;
      [| apply trimEnd_prefix].
    now rewrite (trimStart_starts (String.length m)) in E. }
  split; [| exact T].
  destruct (starts_with_space (first_line (trim m))) eqn:E; [| reflexivity].
  apply (starts_with_space_prefix _ (trim m)) in E;
    [congruence | apply first_line_prefix].
Qed.

(** ** The life cycle *)

Section LifeFacts.
Context {X : Type}.
Variable git : Env X.

Lemma same_handler_refl (f : Handler) : same_handler f f = true.
Proof. destruct f; cbn; apply Nat.eqb_refl. Qed.

Lemma connectedCallback_wired (h : Host) (w : World X) :
  wired h -> wired (host_after (connectedCallback git h w)).
Proof.
  unfold wired, wired_to, connectedCallback. intros (Hb & Hn & Hc).
  destruct (connected h) eqn:C; cbn.
  - rewrite C. split; [exact Hb | split; [exact Hn | discriminate]].
  - destruct (Hc eq_refl) as [Eb En].
    destruct (negb (has_shadow h) || negb (has_content h)); cbn.
    + split; [left; exact Eb | split; [left; exact En | discriminate]].
    + rewrite Eb, En. split; [| split; [| discriminate]].
      * destruct (has_shadow h && is_some (backBtn (dom (this w)))); cbn;
          [right; eauto | now left].
      * destruct (has_shadow h && is_some (nextBtn (dom (this w)))); cbn;
          [right; eauto | now left].
Qed.

Lemma disconnectedCallback_unwires (h : Host) (w : World X) :
  wired h ->
  back_listeners (host_after (disconnectedCallback h w)) = []
  /\ next_listeners (host_after (disconnectedCallback h w)) = [].
Proof.
  unfold wired, wired_to. intros (Hb & Hn & _). cbn. split.
  - destruct Hb as [-> | (-> & g & -> & ->)]; cbn.
    + now destruct (found_backBtn h), (showOlderHandler h).
    + now rewrite same_handler_refl.
  - destruct Hn as [-> | (-> & g & -> & ->)]; cbn.
    + now destruct (found_nextBtn h), (showNewerHandler h).
    + now rewrite same_handler_refl.
Qed.

Lemma life_step_wired (o : LifeOp) (h : Host) (w : World X) :
  wired h -> wired (host_after (life_step git o h w)).
Proof.
  intros W. destruct o; cbn [life_step].
  - now apply connectedCallback_wired.
  - destruct (disconnectedCallback_unwires h w W) as [Eb En].
    destruct W as (_ & _ & Hc).
    unfold wired, wired_to. rewrite Eb, En. cbn. auto.
  - now apply connectedCallback_wired.
  - unfold click. destruct (dispatch git (back_listeners h) w). exact W.
  - unfold click. destruct (dispatch git (next_listeners h) w). exact W.
Qed.

Lemma life_step_connected (o : LifeOp) (h : Host) (w : World X) :
  connected h = true ->
  connected (host_after (life_step git o h w)) = true.
Proof.
  intros C. destruct o; cbn; unfold adoptedCallback, connectedCallback, click;
    try rewrite C; cbn; auto.
  - now destruct (dispatch git (back_listeners h) w).
  - now destruct (dispatch git (next_listeners h) w).
Qed.

(** A connected element without listeners is inert. *)
Lemma life_run_inert (ops : list LifeOp) (h : Host) (w : World X) :
  connected h = true ->
  back_listeners h = [] ->
  next_listeners h = [] ->
  let r := life_run git ops h w in
  calls r = []
  /\ world_after r = w
  /\ back_listeners (host_after r) = []
  /\ next_listeners (host_after r) = [].
Proof.
  cbv zeta. revert h w. induction ops as [|o ops IH]; intros h w C Eb En;
    cbn [life_run]; [cbn; auto |].
  assert (S : calls (life_step git o h w) = []
              /\ world_after (life_step git o h w) = w
              /\ connected (host_after (life_step git o h w)) = true
              /\ back_listeners (host_after (life_step git o h w)) = []
              /\ next_listeners (host_after (life_step git o h w)) = []).
  { destruct o; cbn; unfold adoptedCallback, connectedCallback, click;
      rewrite ?C, ?Eb, ?En; cbn; repeat split; auto.
    all: try (now destruct (found_backBtn h), (showOlderHandler h)).
    all: try (now destruct (found_nextBtn h), (showNewerHandler h)). }
  destruct S as (S1 & S2 & S3 & S4 & S5).
  destruct (IH _ (world_after (life_step git o h w)) S3 S4 S5)
    as (I1 & I2 & I3 & I4).
  cbn [calls world_after host_after].
  split; [now rewrite S1, I1 |]. split; [now rewrite I2 |]. auto.
Qed.

(** X24. Once [disconnectedCallback] has run on an element that had been
    connected, the buttons are dead for good: [#connected] stays set, so
    a later [connectedCallback] or [adoptedCallback] re-attaches nothing,
    and no click pages or calls the library any more. *)
Theorem disconnected_for_good (ops : list LifeOp) (h : Host) (w : World X) :
  wired h ->
  connected h = true ->
  let r := life_run git (Disconnect :: ops) h w in
  calls r = []
  /\ world_after r = w
  /\ back_listeners (host_after r) = []
  /\ next_listeners (host_after r) = [].
Proof.
  intros W C. cbv zeta. cbn [life_run life_step].
  destruct (disconnectedCallback_unwires h w W) as [Eb En].
  destruct (life_run_inert ops (host_after (disconnectedCallback h w)) w)
    as (I1 & I2 & I3 & I4); auto.
Qed.

(** X25. Without a shadow root, or without [#content] in it, nothing ever
    runs: no listener is attached, [initializeRepo] is not called, and
    the first [connectedCallback] reports the error once. *)
Theorem nothing_runs_without_content (ops : list LifeOp)
    (shadow content : bool) (w : World X) :
  shadow && content = false ->
  let r := life_run git ops (new_host shadow content) w in
  calls r = []
  /\ world_after r = w
  /\ back_listeners (host_after r) = []
  /\ next_listeners (host_after r) = []
  /\ (List.length (console (host_after r)) <= 1)%nat.
Proof.
  intros N. cbv zeta.
  assert (G : forall ops h v,
             has_shadow h && has_content h = false ->
             back_listeners h = [] -> next_listeners h = [] ->
             (connected h = false -> console h = []) ->
             (List.length (console h) <= 1)%nat ->
             let r := life_run git ops h v in
             calls r = [] /\ world_after r = v
             /\ back_listeners (host_after r) = []
             /\ next_listeners (host_after r) = []
             /\ (List.length (console (host_after r)) <= 1)%nat).
  { clear. intros ops. induction ops as [|o ops IH];
      intros h v N Eb En Hc Hl; cbn [life_run]; [cbn; auto |].
    assert (N' : negb (has_shadow h) || negb (has_content h) = true)
      by (destruct (has_shadow h), (has_content h); auto).
    assert (S : calls (life_step git o h v) = []
                /\ world_after (life_step git o h v) = v
                /\ has_shadow (host_after (life_step git o h v))
                   && has_content (host_after (life_step git o h v)) = false
                /\ back_listeners (host_after (life_step git o h v)) = []
                /\ next_listeners (host_after (life_step git o h v)) = []
                /\ (connected (host_after (life_step git o h v)) = false ->
                    console (host_after (life_step git o h v)) = [])
                /\ (List.length
                      (console (host_after (life_step git o h v))) <= 1)%nat).
    { destruct o; cbn [life_step];
        unfold adoptedCallback, connectedCallback, disconnectedCallback, click;
        rewrite ?Eb, ?En.
      - destruct (connected h) eqn:C; [cbn; rewrite C; auto 10 |].
        rewrite N'. cbn. rewrite (Hc eq_refl). cbn.
        repeat split; auto; discriminate.
      - cbn. repeat split; auto.
        + now destruct (found_backBtn h), (showOlderHandler h).
        + now destruct (found_nextBtn h), (showNewerHandler h).
      - destruct (connected h) eqn:C; [cbn; rewrite C; auto 10 |].
        rewrite N'. cbn. rewrite (Hc eq_refl). cbn.
        repeat split; auto; discriminate.
      - cbn. auto 10.
      - cbn. auto 10. }
    destruct S as (S1 & S2 & S3 & S4 & S5 & S6 & S7).
    destruct (IH _ (world_after (life_step git o h v)) S3 S4 S5 S6 S7)
      as (I1 & I2 & I3 & I4 & I5).
    cbn [calls world_after host_after].
    split; [now rewrite S1, I1 |]. split; [now rewrite I2 |]. auto. }
  apply G; cbn; auto.
Qed.


Local Opaque updateUI prefetchMore displayCommit showOlder showNewer.

Lemma run_op_never_initializes (o : Op) (w : World X) :
  count_calls is_initializeRepo (events (run_op git o w)) = 0%nat.
Proof.
  assert (P : forall v,
             count_calls is_initializeRepo (events (prefetchMore git v)) = 0%nat)
    by (intros v; destruct (prefetchMore_result git v); reflexivity).
  assert (D : forall v i,
             count_calls is_initializeRepo (events (displayCommit git i v))
             = 0%nat)
    by (intros v i; destruct (displayCommit_result git v i); reflexivity).
  destruct o; cbn [run_op]; auto.
  - rewrite showOlder_eq. cbv zeta.
    destruct (awaited_prefetch git w); cycle 1.
    { cbn [events].
      match goal with
      | |- count_calls _ (?e :: ?a) = _ => change (e :: a) with ([e] ++ a)%list
      end.
      rewrite count_calls_app. destruct (_ && _); rewrite ?P; reflexivity. }
    destruct (_ <? _); cbn [events];
      match goal with
      | |- count_calls _ (?e :: ?a ++ ?b) = _ =>
          change (e :: a ++ b) with ([e] ++ a ++ b)%list
      end;
      rewrite !count_calls_app; destruct (_ && _); rewrite ?P, ?D; reflexivity.
  - rewrite showNewer_eq. cbv zeta.
    destruct (_ >? _); cbn [events]; [| reflexivity].
    match goal with
    | |- count_calls _ (?e :: ?a) = _ => change (e :: a) with ([e] ++ a)%list
    end.
    rewrite count_calls_app, D. reflexivity.
Qed.

Lemma dispatch_never_initializes (l : list Handler) (w : World X) :
  count_calls is_initializeRepo (snd (dispatch git l w)) = 0%nat.
Proof.
  revert w. induction l as [|f l IH]; intros w; cbn [dispatch]; [reflexivity |].
  specialize (IH (final (handle git f w))).
  destruct (dispatch git l (final (handle git f w))) as [w' es].
  cbn [snd] in *. rewrite count_calls_app, IH.
  destruct f; cbn [handle].
  - pose proof (run_op_never_initializes OpShowOlder w) as K.
    cbn [run_op] in K. now rewrite K.
  - pose proof (run_op_never_initializes OpShowNewer w) as K.
    cbn [run_op] in K. now rewrite K.
Qed.

Lemma initializeRepo_enters_once (w : World X) :
  count_calls is_initializeRepo (events (initializeRepo git w)) = 1%nat.
Proof.
  assert (G : forall P : list Event -> Prop,
             (forall es, count_calls is_initializeRepo es = 0%nat ->
                         P (Enter MInitializeRepo :: es)) ->
             P (events (initializeRepo git w))).
  { intros P HP.
    unfold initializeRepo, cloneOrFetchRepo. autounfold with js_unfold.
    destruct w as [c g x]. cbn.
    destruct (pfs_mkdir git _ _ x) as [[[]|em] x0]; cbn.
    all: destruct (git_clone git _ x0) as [[[]|ec] x1]; cbn.
    all: try (destruct (git_fetch git _ x1) as [[[]|ef] x1']; cbn).
    all: try (apply HP; reflexivity).
    all: match goal with
         | |- context [git_checkout git ?a ?y] =>
             destruct (git_checkout git a y) as [[[]|eo] x2]; cbn
         end.
    all: try (apply HP; reflexivity).
    all: match goal with
         | |- context [git_log git ?a ?y] =>
             destruct (git_log git a y) as [[l|el] x3]; cbn
         end.
    all: try (apply HP; reflexivity).
    all: destruct (contentAnimation (dom c)); cbn.
    all: try (apply HP; reflexivity).
    all: match goal with
         | |- context [displayCommit git 0 ?v] =>
             destruct (displayCommit_result git v 0); cbn; apply HP;
             reflexivity
         end. }
  apply G. intros es H.
  change (Enter MInitializeRepo :: es) with ([Enter MInitializeRepo] ++ es)%list.
  now rewrite count_calls_app, H.
Qed.

Lemma life_step_calls (o : LifeOp) (h : Host) (w : World X) :
  (count_calls is_initializeRepo (calls (life_step git o h w)) <= 1)%nat
  /\ (connected h = true ->
      count_calls is_initializeRepo (calls (life_step git o h w)) = 0%nat)
  /\ (count_calls is_initializeRepo (calls (life_step git o h w)) = 1%nat ->
      connected (host_after (life_step git o h w)) = true).
Proof.
  assert (K : forall l, count_calls is_initializeRepo
                          (calls (click git l h w)) = 0%nat).
  { intros l. unfold click.
    pose proof (dispatch_never_initializes l w) as D.
    destruct (dispatch git l w). exact D. }
  assert (C : forall h' v,
             h' = connectedCallback git h w ->
             v = count_calls is_initializeRepo (calls h') ->
             (v <= 1)%nat
             /\ (connected h = true -> v = 0%nat)
             /\ (v = 1%nat -> connected (host_after h') = true)).
  { intros h' v -> ->. unfold connectedCallback.
    destruct (connected h) eqn:Ch; cbn [calls host_after connected];
      [rewrite Ch; repeat split; try lia; try discriminate; auto |].
    destruct (negb (has_shadow h) || negb (has_content h));
      cbn [calls host_after connected];
      [repeat split; try lia; try discriminate; auto |].
    rewrite initializeRepo_enters_once. repeat split; try lia; try discriminate; auto. }
  destruct o; cbn [life_step]; rewrite ?K;
    try solve [repeat split; try lia; try discriminate; auto].
  - now apply (C _ _ eq_refl eq_refl).
  - unfold adoptedCallback. now apply (C _ _ eq_refl eq_refl).
Qed.

Lemma life_run_connected (ops : list LifeOp) (h : Host) (w : World X) :
  connected h = true ->
  count_calls is_initializeRepo (calls (life_run git ops h w)) = 0%nat.
Proof.
  revert h w. induction ops as [|o ops IH]; intros h w C; cbn [life_run];
    [reflexivity |].
  cbn [calls]. rewrite count_calls_app.
  rewrite (proj1 (proj2 (life_step_calls o h w)) C).
  rewrite IH; [reflexivity |]. now apply life_step_connected.
Qed.

Lemma life_run_wired (ops : list LifeOp) (h : Host) (w : World X) :
  wired h -> wired (host_after (life_run git ops h w)).
Proof.
  revert h w. induction ops as [|o ops IH]; intros h w W; cbn [life_run];
    [exact W |].
  cbn [host_after]. apply IH. now apply life_step_wired.
Qed.

(** X23. However often the element is connected, adopted, disconnected and
    clicked, [initializeRepo] runs at most once and no button ever has
    more than one listener. *)
Theorem initializeRepo_runs_at_most_once (ops : list LifeOp)
    (shadow content : bool) (w : World X) :
  let r := life_run git ops (new_host shadow content) w in
  (count_calls is_initializeRepo (calls r) <= 1)%nat
  /\ (List.length (back_listeners (host_after r)) <= 1)%nat
  /\ (List.length (next_listeners (host_after r)) <= 1)%nat.
Proof.
  cbv zeta.
  assert (W : wired (new_host shadow content))
    by (unfold wired, wired_to; cbn; auto).
  split.
  - generalize (new_host shadow content) as h. clear W.
    revert w. induction ops as [|o ops IH]; intros w h; cbn [life_run];
      [cbn; lia |].
    cbn [calls]. rewrite count_calls_app.
    destruct (life_step_calls o h w) as (L1 & _ & L3).
    destruct (Nat.eq_dec
                (count_calls is_initializeRepo (calls (life_step git o h w))) 1)
      as [E|E].
    + rewrite (life_run_connected ops _ _ (L3 E)). lia.
    + specialize (IH (world_after (life_step git o h w))
                    (host_after (life_step git o h w))). lia.
  - pose proof (life_run_wired ops _ w W) as (Hb & Hn & _).
    unfold wired_to in *.
    split.
    + destruct Hb as [-> | (_ & g & _ & ->)]; cbn; lia.
    + destruct Hn as [-> | (_ & g & _ & ->)]; cbn; lia.
Qed.

Local Transparent updateUI prefetchMore displayCommit showOlder showNewer.

End LifeFacts.


(** * More runs on the simulated repository *)

Lemma displayCommit_repaints_witness :
  let w := Sim.started 3 1 2 in
  0 <= 1 < len (log (this w))
  /\ commitInfo (dom (this (final (displayCommit Sim.env 1 w))))
     = Some "Commit 2/3: fourth".
Proof.
  assert (R : 0 <= 1 < len (log (this (Sim.started 3 1 2))))
    by (vm_compute; split; [discriminate | reflexivity]).
  assert (E : js_index (log (this (Sim.started 3 1 2))) 1
              = Some (Sim.entry "c4" "fourth"))
    by (vm_compute; reflexivity).
  assert (O : outcome (displayCommit Sim.env 1 (Sim.started 3 1 2)) = Ok tt)
    by (vm_compute; reflexivity).
  split; [exact R |].
  pose proof (displayCommit_repaints Sim.env (Sim.started 3 1 2) 1
                (Sim.entry "c4" "fourth") R E O) as H.
  cbv zeta in H. destruct H as [H _].
  etransitivity; [exact H | vm_compute; reflexivity].
Defined.

Lemma missing_button_freezes_the_other_witness :
  let w := without_next (Sim.started 3 1 2) in
  nextBtn (dom (this w)) = None
  /\ backBtn (dom (this (final (run_op Sim.env OpShowOlder w))))
     = backBtn (dom (this w)).
Proof.
  assert (N : nextBtn (dom (this (without_next (Sim.started 3 1 2)))) = None)
    by (vm_compute; reflexivity).
  split; [exact N |].
  destruct (missing_button_freezes_the_other Sim.env OpShowOlder
              (without_next (Sim.started 3 1 2)) (or_intror N)) as [H _].
  exact H.
Defined.

Lemma page_stays_in_sync_witness :
  let w' := final (run_op Sim.env OpPrefetchMore (Sim.started 3 1 2)) in
  index_within (this w') /\ in_sync (this w').
Proof.
  apply (page_stays_in_sync Sim.env OpPrefetchMore (Sim.started 3 1 2)).
  - vm_compute. repeat split; discriminate.
  - split.
    + intros e He. vm_compute in He. injection He as <-.
      vm_compute. reflexivity.
    + intros b n Hb Hn. vm_compute in Hb, Hn.
      injection Hb as <-. injection Hn as <-.
      vm_compute. split; reflexivity.
  - vm_compute. reflexivity.
  - vm_compute. lia.
Defined.

Lemma failed_checkout_leaves_the_page_witness :
  let w := wiped (Sim.started 3 1 2) in
  outcome (displayCommit Sim.env 1 w) = Throw (LibError "not a repository")
  /\ currentIndex (this (final (displayCommit Sim.env 1 w))) = 1
  /\ dom (this (final (displayCommit Sim.env 1 w))) = dom (this w).
Proof.
  assert (R : 0 <= 1 < len (log (this (wiped (Sim.started 3 1 2)))))
    by (vm_compute; split; [discriminate | reflexivity]).
  assert (E : js_index (log (this (wiped (Sim.started 3 1 2)))) 1
              = Some (Sim.entry "c4" "fourth"))
    by (vm_compute; reflexivity).
  assert (T : git_checkout Sim.env
                (checkout_args (wiped (Sim.started 3 1 2))
                               (Sim.entry "c4" "fourth"))
                (ext (wiped (Sim.started 3 1 2)))
              = (Throw (LibError "not a repository"),
                 ext (wiped (Sim.started 3 1 2))))
    by (vm_compute; reflexivity).
  destruct (failed_checkout_leaves_the_page Sim.env
              (wiped (Sim.started 3 1 2)) 1 (Sim.entry "c4" "fourth")
              (LibError "not a repository")
              (ext (wiped (Sim.started 3 1 2))) R E T) as [H _].
  cbv zeta. rewrite H. vm_compute. repeat split.
Defined.

Lemma checkout_is_the_current_commit_witness :
  let r := run_op Sim.env OpShowOlder (Sim.started 3 1 2) in
  exists e,
    js_index (log (this (final r))) (currentIndex (this (final r))) = Some e
    /\ "c4" = oid e.
Proof.
  assert (I : In (GitCheckout {| o_fs := Some (LightningFS "fs");
                                 o_dir := Some "/repo"; o_ref := "c4";
                                 o_force := Some true |})
                 (events (run_op Sim.env OpShowOlder (Sim.started 3 1 2))))
    by (vm_compute; repeat (first [left; reflexivity | right])).
  pose proof (checkout_is_the_current_commit Sim.env OpShowOlder
                (Sim.started 3 1 2) _ I) as H.
  cbv zeta in H. destruct H as [_ H]. exact H.
Defined.

Lemma paging_stops_at_the_ends_witness :
  let w := Sim.started 3 1 2 in
  showNewer Sim.env w
  = {| outcome := Ok tt; final := w; events := [Enter MShowNewer] |}.
Proof.
  destruct (paging_stops_at_the_ends Sim.env (Sim.started 3 1 2)) as [H _].
  apply H. vm_compute. discriminate.
Defined.

Lemma flags_are_clear_between_operations_witness :
  let ops := [OpShowOlder; OpPrefetchMore; OpShowNewer; OpDisplayCommit 2] in
  let w' := fst (run_ops Sim.env ops (Sim.unplug (Sim.started 3 1 2))) in
  isFetching (this w') = false
  /\ loadingMore (this w') = false
  /\ busy (this w') = fetchFailed (this w').
Proof.
  apply (flags_are_clear_between_operations Sim.env
           [OpShowOlder; OpPrefetchMore; OpShowNewer; OpDisplayCommit 2]
           (Sim.unplug (Sim.started 3 1 2))).
  - vm_compute. reflexivity.
  - vm_compute. reflexivity.
Defined.

Lemma initializeRepo_rejects_when_both_fail_witness :
  let w := Sim.unplug (Sim.boot 3 1 2) in
  outcome (initializeRepo Sim.env w) = Throw (LibError "fetch failed")
  /\ log (this (final (initializeRepo Sim.env w))) = [].
Proof.
  pose proof (initializeRepo_rejects_when_both_fail Sim.env
                (Sim.unplug (Sim.boot 3 1 2)) (Ok tt)
                (ext (Sim.unplug (Sim.boot 3 1 2)))
                (ext (Sim.unplug (Sim.boot 3 1 2)))
                (ext (Sim.unplug (Sim.boot 3 1 2)))
                (LibError "clone failed") (LibError "fetch failed")) as H.
  cbv zeta in H.
  lapply H; [clear H; intros H | vm_compute; reflexivity].
  lapply H; [clear H; intros H | vm_compute; reflexivity].
  lapply H; [clear H; intros H | vm_compute; reflexivity].
  destruct H as (H1 & _ & _ & H4 & _).
  split; [exact H1 | exact H4].
Defined.

Lemma initializeRepo_with_no_commit_witness :
  let w := bare 3 1 2 in
  outcome (initializeRepo Sim.env w) = Ok tt
  /\ log (this (final (initializeRepo Sim.env w))) = []
  /\ content (dom (this (final (initializeRepo Sim.env w)))) = "".
Proof.
  pose proof (initializeRepo_with_no_commit Sim.env (bare 3 1 2) (Ok tt)
                (ext (bare 3 1 2))
                (Sim.with_cloned true (ext (bare 3 1 2)))
                (Sim.with_head (Some "origin/main")
                   (Sim.with_cloned true (ext (bare 3 1 2))))
                (Sim.with_head (Some "origin/main")
                   (Sim.with_cloned true (ext (bare 3 1 2))))
                (events (cloneOrFetchRepo Sim.env
                           {| r_fs := Some (LightningFS "fs");
                              r_http := HttpWeb; r_dir := Some "/repo";
                              r_url := repoUrl (this (bare 3 1 2));
                              r_branch := branch (this (bare 3 1 2));
                              r_depth :=
                                JNumber (initialDepth (this (bare 3 1 2))) |}
                           (world (loading (this (bare 3 1 2)))
                              (repo_globals (globalThis (bare 3 1 2)))
                              (ext (bare 3 1 2)))))
                tt) as H.
  cbv zeta in H.
  lapply H; [clear H; intros H | vm_compute; reflexivity].
  lapply H; [clear H; intros H | vm_compute; reflexivity].
  lapply H; [clear H; intros H | vm_compute; reflexivity].
  lapply H; [clear H; intros H | vm_compute; reflexivity].
  destruct H as (H1 & H2 & _ & H4 & _).
  split; [etransitivity; [exact H1 | vm_compute; reflexivity] |].
  split; [exact H2 |].
  etransitivity; [exact H4 | vm_compute; reflexivity].
Defined.

Lemma cut_after_hr_without_rule_witness :
  cut_after_hr [Text "a"; Elem "p" [] [Text "b"]]
  = [Text "a"; Elem "p" [] [Text "b"]].
Proof.
  apply (cut_after_hr_without_rule [Text "a"; Elem "p" [] [Text "b"]]).
  reflexivity.
Defined.

Lemma cut_after_hr_at_top_level_witness :
  cut_after_hr ([Text "news"; Elem "p" [] [Text "more"]]
                ++ Elem "hr" [] [] :: [Text "footer"])
  = ([Text "news"; Elem "p" [] [Text "more"]] ++ [Elem "hr" [] []])%list.
Proof.
  apply (cut_after_hr_at_top_level [Text "news"; Elem "p" [] [Text "more"]]
           (Elem "hr" [] []) [Text "footer"]); reflexivity.
Defined.

Lemma cut_after_hr_nested_rule_witness :
  exists p,
    querySelector_hr (Elem "div" [] [Text "b"; Elem "hr" [] []; Text "c"])
    = Some p
    /\ cut_after_hr
         ([Text "a"]
          ++ Elem "div" [] [Text "b"; Elem "hr" [] []; Text "c"] :: [Text "z"])
       = ([Text "a"]
          ++ removeNextSiblings p
               (Elem "div" [] [Text "b"; Elem "hr" [] []; Text "c"])
          :: [Text "z"])%list.
Proof.
  apply (cut_after_hr_nested_rule [Text "a"]
           (Elem "div" [] [Text "b"; Elem "hr" [] []; Text "c"]) [Text "z"]);
    reflexivity.
Defined.

Lemma disconnected_for_good_witness :
  let c := connectedCallback Sim.env (new_host true true) (Sim.boot 3 1 2) in
  let r := life_run Sim.env [Disconnect; Connect; ClickBack; Adopt; ClickNext]
             (host_after c) (world_after c) in
  back_listeners (host_after c) = [OlderHandler 0]
  /\ calls r = []
  /\ world_after r = world_after c
  /\ back_listeners (host_after r) = []
  /\ next_listeners (host_after r) = [].
Proof.
  cbv zeta. split; [vm_compute; reflexivity |].
  apply (disconnected_for_good Sim.env [Connect; ClickBack; Adopt; ClickNext]
           (host_after (connectedCallback Sim.env (new_host true true)
                          (Sim.boot 3 1 2)))
           (world_after (connectedCallback Sim.env (new_host true true)
                           (Sim.boot 3 1 2)))).
  - split; [| split].
    + right. split; [vm_compute; reflexivity |].
      exists (OlderHandler 0). split; vm_compute; reflexivity.
    + right. split; [vm_compute; reflexivity |].
      exists (NewerHandler 1). split; vm_compute; reflexivity.
    + intros H. vm_compute in H. discriminate H.
  - vm_compute. reflexivity.
Defined.

Lemma nothing_runs_without_content_witness :
  let r := life_run Sim.env [Connect; ClickBack; Disconnect; Adopt; ClickNext]
             (new_host true false) (Sim.boot 3 1 2) in
  calls r = []
  /\ world_after r = Sim.boot 3 1 2
  /\ back_listeners (host_after r) = []
  /\ next_listeners (host_after r) = []
  /\ (List.length (console (host_after r)) <= 1)%nat.
Proof.
  apply (nothing_runs_without_content Sim.env
           [Connect; ClickBack; Disconnect; Adopt; ClickNext] true false
           (Sim.boot 3 1 2)).
  reflexivity.
Defined.
